(** * GltfImageCacheResource: a shallow embedding and its verified properties

    The development follows [Source/Scene/GltfImageCacheResource.js]:
    - [Sniff]: [getMimeTypeFromTypedArray] and [loadImageFromBufferTypedArray];
    - [RegExp], [UriDispatch]: the two regular expressions and
      [loadImageFromUri];
    - the constructor, [load], [unload], [handleError] and the handlers
      registered on the promises, which [step] runs one event at a time.

    JavaScript values are modelled as follows: [undefined] is [None], a
    thrown exception is [Throw], a [Uint8Array] is a list of integers, a
    string is a [string], a promise that is still pending is an element of
    the list of pending tasks of the world. *)

From Stdlib Require Import ZArith String Ascii List Bool Lia.
From stdpp Require Import base tactics option list.
Import ListNotations.

Local Open Scope string_scope.
Local Open Scope list_scope.

(** ** JavaScript errors and abrupt completion *)

Inductive JsError : Type :=
| RuntimeError (message : string)
| TypeError (message : string)
| ForeignError (message : string).

Definition message (e : JsError) : string :=
  match e with
  | RuntimeError m | TypeError m | ForeignError m => m
  end.

(** The result of running a piece of synchronous code: a value, or an
    exception that unwinds to the nearest promise handler. *)
Inductive completion (A : Type) : Type :=
| Normal (a : A)
| Throw (e : JsError).
Arguments Normal {A} a.
Arguments Throw {A} e.

#[global] Instance completion_bind : MBind completion :=
  fun A B (k : A -> completion B) (c : completion A) =>
    match c with
    | Normal a => k a
    | Throw e => Throw e
    end.

(** ** Typed arrays *)

Module TypedArray.

(** A [Uint8Array]; every element is in [0, 255] in the source, the
    definitions below do not depend on it. *)
Definition t := list Z.

(** [typedArray.subarray(b, e)] for [0 <= b <= e]: both ends are clamped
    to the length. *)
Definition subarray (a : t) (b e : nat) : t := take (e - b) (drop b a).

(** [a[i] === v]. Reading past the end gives [undefined], which is not
    strictly equal to any number. *)
Definition at_eq (a : t) (i : nat) (v : Z) : bool :=
  match a !! i with
  | Some x => Z.eqb x v
  | None => false
  end.

End TypedArray.

(** ** Decoders

    The decoders are collaborators; a call to one of them is recorded with
    its arguments. [R] is the type of resources. *)

Inductive DecoderCall (R : Type) : Type :=
| loadKTX_typedArray (typedArray : TypedArray.t)
| loadCRN_typedArray (typedArray : TypedArray.t)
| loadImageFromTypedArray (uint8Array : TypedArray.t) (format : string) (flipY : bool)
| loadKTX_resource (resource : R)
| loadCRN_resource (resource : R)
| fetchImage (resource : R).
Arguments loadKTX_typedArray {R}.
Arguments loadCRN_typedArray {R}.
Arguments loadImageFromTypedArray {R}.
Arguments loadKTX_resource {R}.
Arguments loadCRN_resource {R}.
Arguments fetchImage {R}.

(** ** Format sniffing *)

Module Sniff.
Import TypedArray.
Local Open Scope Z_scope.

Definition getMimeTypeFromTypedArray (typedArray : TypedArray.t) : completion string :=
  let header := subarray typedArray 0 2 in
  let webpHeaderRIFFChars := subarray typedArray 0 4 in
  let webpHeaderWEBPChars := subarray typedArray 8 12 in
  if at_eq header 0 0x42 && at_eq header 1 0x49 then Normal "image/bmp"
  else if at_eq header 0 0x47 && at_eq header 1 0x49 then Normal "image/gif"
  else if at_eq header 0 0xff && at_eq header 1 0xd8 then Normal "image/jpeg"
  else if at_eq header 0 0x89 && at_eq header 1 0x50 then Normal "image/png"
  else if at_eq header 0 0xab && at_eq header 1 0x4b then Normal "image/ktx"
  else if at_eq header 0 0x48 && at_eq header 1 0x78 then Normal "image/crn"
  else if at_eq header 0 0x73 && at_eq header 1 0x42 then Normal "image/basis"
  else if at_eq webpHeaderRIFFChars 0 0x52 &&
          at_eq webpHeaderRIFFChars 1 0x49 &&
          at_eq webpHeaderRIFFChars 2 0x46 &&
          at_eq webpHeaderRIFFChars 3 0x46 &&
          at_eq webpHeaderWEBPChars 0 0x57 &&
          at_eq webpHeaderWEBPChars 1 0x45 &&
          at_eq webpHeaderWEBPChars 2 0x42 &&
          at_eq webpHeaderWEBPChars 3 0x50
       then Normal "image/webp"
  else Throw (RuntimeError "Image data does not have valid header").

Definition loadImageFromBufferTypedArray {R} (typedArray : TypedArray.t)
  : completion (DecoderCall R) :=
  mimeType ← getMimeTypeFromTypedArray typedArray;
  if String.eqb mimeType "image/ktx" then
    Normal (loadKTX_typedArray typedArray)
  else if String.eqb mimeType "image/crn" then
    Normal (loadCRN_typedArray typedArray)
  else
    Normal (loadImageFromTypedArray typedArray mimeType false).

(** *** The table of the specification *)

Inductive ImageFormat : Type :=
| BMP | GIF | JPEG | PNG | KTX | CRN | Basis | WebP.

Definition mime (f : ImageFormat) : string :=
  match f with
  | BMP => "image/bmp"
  | GIF => "image/gif"
  | JPEG => "image/jpeg"
  | PNG => "image/png"
  | KTX => "image/ktx"
  | CRN => "image/crn"
  | Basis => "image/basis"
  | WebP => "image/webp"
  end.

(** [has_header f bytes]: the byte sequence starts with the signature
    that the specification lists for [f]. *)
Definition has_header (f : ImageFormat) (bytes : list Z) : Prop :=
  match f with
  | BMP => exists rest, bytes = 0x42 :: 0x49 :: rest
  | GIF => exists rest, bytes = 0x47 :: 0x49 :: rest
  | JPEG => exists rest, bytes = 0xff :: 0xd8 :: rest
  | PNG => exists rest, bytes = 0x89 :: 0x50 :: rest
  | KTX => exists rest, bytes = 0xab :: 0x4b :: rest
  | CRN => exists rest, bytes = 0x48 :: 0x78 :: rest
  | Basis => exists rest, bytes = 0x73 :: 0x42 :: rest
  | WebP => exists b4 b5 b6 b7 rest,
      bytes = 0x52 :: 0x49 :: 0x46 :: 0x46 :: b4 :: b5 :: b6 :: b7 ::
              0x57 :: 0x45 :: 0x42 :: 0x50 :: rest
  end.

Definition png_header : list Z :=
  [0x89; 0x50; 0x4e; 0x47; 0x0d; 0x0a; 0x1a; 0x0a; 0x00; 0x00; 0x00; 0x0d].

Definition ktx_header : list Z :=
  [0xab; 0x4b; 0x54; 0x58; 0x20; 0x31; 0x31; 0xbb; 0x0d; 0x0a; 0x1a; 0x0a].

End Sniff.

(** ** Regular expressions

    The fragment of JavaScript regular expressions that the source uses: a
    disjunction of alternatives, each a sequence of the assertions [^] and
    [$] and of pattern characters, and the flag [i]. A string is a
    sequence of code units below 256. *)

Module RegExp.

Inductive Term : Type :=
| AssertStart
| AssertEnd
| PatternChar (c : ascii).

Definition Alternative := list Term.

Record t : Type := { disjunction : list Alternative; ignoreCase : bool }.

Definition to_upper (c : ascii) : ascii :=
  let n := nat_of_ascii c in
  if (97 <=? n)%nat && (n <=? 122)%nat then ascii_of_nat (n - 32) else c.

(** [Canonicalize]: with the flag [i] a character is compared through
    its upper case; a code unit from 128 on is never mapped to one below
    128, so that only the letters a-z change. *)
Definition canonicalize (ignoreCase : bool) (ch : ascii) : ascii :=
  if ignoreCase then to_upper ch else ch.

Fixpoint chars (s : string) : Alternative :=
  match s with
  | EmptyString => []
  | String c s' => PatternChar c :: chars s'
  end.

(** Match an alternative at the current position; [start] tells whether
    the position is the beginning of the input, [input] is what is left
    from the position on. *)
Fixpoint match_alternative (ic : bool) (ts : Alternative) (start : bool)
    (input : string) : bool :=
  match ts with
  | [] => true
  | AssertStart :: ts' => start && match_alternative ic ts' start input
  | AssertEnd :: ts' =>
      match input with
      | EmptyString => match_alternative ic ts' start input
      | String _ _ => false
      end
  | PatternChar c :: ts' =>
      match input with
      | EmptyString => false
      | String d rest =>
          Ascii.eqb (canonicalize ic c) (canonicalize ic d)
          && match_alternative ic ts' false rest
      end
  end.

(** Try every position from the current one to the end of the input. *)
Fixpoint exec_from (r : t) (start : bool) (input : string) : bool :=
  existsb (fun alt => match_alternative (ignoreCase r) alt start input)
          (disjunction r)
  || match input with
     | EmptyString => false
     | String _ rest => exec_from r false rest
     end.

(** [regex.test(input)] for a regular expression without the flag [g]. *)
Definition test (r : t) (input : string) : bool := exec_from r true input.

(** *** The words of the specification

    "Case-insensitive", said without the matcher: the table of the letters,
    each in its two cases. *)

Definition letters : list (ascii * ascii) :=
  [ ("a", "A"); ("b", "B"); ("c", "C"); ("d", "D"); ("e", "E"); ("f", "F");
    ("g", "G"); ("h", "H"); ("i", "I"); ("j", "J"); ("k", "K"); ("l", "L");
    ("m", "M"); ("n", "N"); ("o", "O"); ("p", "P"); ("q", "Q"); ("r", "R");
    ("s", "S"); ("t", "T"); ("u", "U"); ("v", "V"); ("w", "W"); ("x", "X");
    ("y", "Y"); ("z", "Z") ]%char.

(** Two characters are the same up to case: they are equal, or the two
    cases of one letter. *)
Definition same_letter (a b : ascii) : Prop :=
  a = b \/ In (a, b) letters \/ In (b, a) letters.

(** Two strings are the same up to case: of the same length, and the
    same up to case character by character. *)
Fixpoint same_text (s t : string) : Prop :=
  match s, t with
  | EmptyString, EmptyString => True
  | String a s', String b t' => same_letter a b /\ same_text s' t'
  | _, _ => False
  end.

(** [s] starts with [p], ignoring case. *)
Definition prefix_ci (p s : string) : Prop :=
  exists pre rest, s = (pre ++ rest)%string /\ same_text pre p.

(** [s] ends with [x], ignoring case. *)
Definition suffix_ci (x s : string) : Prop :=
  exists pre suf, s = (pre ++ suf)%string /\ same_text suf x.

(** *** For the proofs: the table as a test, and the 256 characters *)

Definition same_letter_b (a b : ascii) : bool :=
  Ascii.eqb a b
  || existsb (fun p => (Ascii.eqb a (fst p) && Ascii.eqb b (snd p))
                       || (Ascii.eqb a (snd p) && Ascii.eqb b (fst p)))
             letters.

Definition all_ascii : list ascii := List.map ascii_of_nat (seq 0 256).

End RegExp.

(** ** Resources *)

Record Resource : Type := { url : string }.

(** The base resource of a glTF: the paths of the glTF are relative to
    it. [getDerivedResource] is its method, called with [{url: uri}]. *)
Record BaseResource : Type := {
  base : Resource;
  getDerivedResource : option string -> Resource
}.

(** ** Dispatch on the uri *)

Module UriDispatch.
Import RegExp.

(** [/(^data:image\/ktx)|(\.ktx$)/i] *)
Definition ktxRegex : RegExp.t :=
  {| disjunction := [ AssertStart :: chars "data:image/ktx";
                      chars ".ktx" ++ [AssertEnd] ];
     ignoreCase := true |}.

(** [/(^data:image\/crn)|(\.crn$)/i] *)
Definition crnRegex : RegExp.t :=
  {| disjunction := [ AssertStart :: chars "data:image/crn";
                      chars ".crn" ++ [AssertEnd] ];
     ignoreCase := true |}.

Definition loadImageFromUri (resource : Resource) : DecoderCall Resource :=
  let uri := url resource in
  if test ktxRegex uri then loadKTX_resource resource
  else if test crnRegex uri then loadCRN_resource resource
  else fetchImage resource.

(** The patterns as the specification words them. *)
Definition ktx_pattern (locator : string) : Prop :=
  prefix_ci "data:image/ktx" locator \/ suffix_ci ".ktx" locator.

Definition crn_pattern (locator : string) : Prop :=
  prefix_ci "data:image/crn" locator \/ suffix_ci ".crn" locator.

End UriDispatch.

(** ** The glTF JSON *)

(** An entry of [extras.compressedImage3DTiles]. *)
Module Variant.
Record t : Type := { bufferView : option nat; uri : option string }.
End Variant.

Module CompressedImage3DTiles.
Record t : Type := {
  crunch : option Variant.t;
  s3tc : option Variant.t;
  pvrtc1 : option Variant.t;
  etc1 : option Variant.t
}.
End CompressedImage3DTiles.

Module Extras.
Record t : Type := { compressedImage3DTiles : option CompressedImage3DTiles.t }.
End Extras.

Module Image.
Record t : Type := {
  bufferView : option nat;
  uri : option string;
  extras : option Extras.t
}.
End Image.

Module Gltf.
Record t : Type := { images : list Image.t }.
End Gltf.

Module SupportedImageFormats.
Record t : Type := { webp : bool; s3tc : bool; pvrtc : bool; etc1 : bool }.
End SupportedImageFormats.

(** ** The cache entry *)

Inductive CacheResourceState : Type := UNLOADED | LOADING | READY | FAILED.

Definition CacheResourceState_eqb (a b : CacheResourceState) : bool :=
  match a, b with
  | UNLOADED, UNLOADED | LOADING, LOADING | READY, READY | FAILED, FAILED => true
  | _, _ => false
  end.

(** What a decoder resolves to: an [Image], an [ImageBitmap] or a
    [CompressedTextureBuffer], named by a number. *)
Definition DecodedImage := nat.

(** What [resourceCache.loadBufferView] returns. Every call is one
    acquisition from the cache and [token] names it: the cache counts one
    reference for each call, also when two calls give the same object. *)
Record BufferViewCacheResource : Type := { token : nat }.

(** Modelled from the spec: the deferred of [when.defer()]
    ([ThirdParty/when.js]), "a single-resolution future ... resolved exactly
    once (to the entry itself on success, or to an error on failure) and
    never re-resolved". A deferred is pending until the first call of
    [resolve] or [reject]. *)
Inductive Deferred : Type :=
| Pending
| Resolved
| Rejected (reason : JsError).

Definition settled (d : Deferred) : bool :=
  match d with
  | Pending => false
  | _ => true
  end.

(** The fields of the entry. [_resourceCache] is the cache of the world:
    what the entry calls on it is recorded in the trace. *)
Record GltfImageCacheResource : Type := {
  _gltfResource : Resource;
  _baseResource : BaseResource;
  _gltf : option Gltf.t;
  _bufferViewId : option nat;
  _uri : option string;
  _cacheKey : string;
  _bufferViewCacheResource : option BufferViewCacheResource;
  _image : option DecodedImage;
  _state : CacheResourceState;
  _promise : Deferred
}.

(** The options of the constructor, with the types that its checks ask
    for. *)
Record Options : Type := {
  gltf : Gltf.t;
  imageId : nat;
  gltfResource : Resource;
  baseResource : BaseResource;
  supportedImageFormats : SupportedImageFormats.t;
  cacheKey : string
}.

(** [defined(v) ? a : b] *)
Definition defined {A} (v : option A) : bool :=
  match v with
  | Some _ => true
  | None => false
  end.

(** The two variables [bufferViewId] and [uri] of the constructor after
    the branch for the variant [v]. *)
Definition use_variant (v : Variant.t) (src : option nat * option string)
  : option nat * option string :=
  if defined (Variant.bufferView v) then (Variant.bufferView v, snd src)
  else (fst src, Variant.uri v).

(** [supports && defined(v)], with the value of [v] when it holds. *)
Definition supported {A} (supports : bool) (v : option A) : option A :=
  if supports then v else None.

(** The constructor up to [this._bufferViewId] and [this._uri]. *)
Definition select_source (image : Image.t) (formats : SupportedImageFormats.t)
  : option nat * option string :=
  let extras := Image.extras image in
  let src := (Image.bufferView image, Image.uri image) in
  let supportsS3tc := SupportedImageFormats.s3tc formats in
  let supportsPvrtc := SupportedImageFormats.pvrtc formats in
  let supportsEtc1 := SupportedImageFormats.etc1 formats in
  match extras ≫= Extras.compressedImage3DTiles with
  | Some tiles =>
      let crunch := CompressedImage3DTiles.crunch tiles in
      let s3tc := CompressedImage3DTiles.s3tc tiles in
      let pvrtc := CompressedImage3DTiles.pvrtc1 tiles in
      let etc1 := CompressedImage3DTiles.etc1 tiles in
      match supported supportsS3tc crunch with
      | Some crunch => use_variant crunch src
      | None =>
      match supported supportsS3tc s3tc with
      | Some s3tc => use_variant s3tc src
      | None =>
      match supported supportsPvrtc pvrtc with
      | Some pvrtc => use_variant pvrtc src
      | None =>
      match supported supportsEtc1 etc1 with
      | Some etc1 => use_variant etc1 src
      | None => src
      end end end end
  | None => src
  end.

(** The constructor, as a release build has it: the checks of lines 54 to
    65 stand between [includeStart('debug')] and [includeEnd('debug')] and
    are removed from it; [new_GltfImageCacheResource_debug] below puts them
    back. Reading [image.extras] of an image that [gltf.images] does not
    have throws the [TypeError] of the engine; the text of its message
    differs from engine to engine, the one here stands for it and no
    property depends on it. *)
Definition new_GltfImageCacheResource (options : Options)
  : completion GltfImageCacheResource :=
  match Gltf.images (gltf options) !! imageId options with
  | None => Throw (TypeError "Cannot read properties of undefined")
  | Some image =>
      let '(bufferViewId, uri) := select_source image (supportedImageFormats options) in
      Normal {| _gltfResource := gltfResource options;
                _baseResource := baseResource options;
                _gltf := Some (gltf options);
                _bufferViewId := bufferViewId;
                _uri := uri;
                _cacheKey := cacheKey options;
                _bufferViewCacheResource := None;
                _image := None;
                _state := UNLOADED;
                _promise := Pending |}
  end.

(** The constructor of a debug build. The ten calls of [Check.typeOf] of
    lines 55 to 64 run first, before the glTF is read; an exception of
    theirs leaves the constructor. [Core/Check.js] is not among the
    sources: what the calls do with the options is the parameter
    [check]. *)
Definition new_GltfImageCacheResource_debug
    (check : Options -> completion unit) (options : Options)
  : completion GltfImageCacheResource :=
  _ ← check options; new_GltfImageCacheResource options.

(** ** The world: the entry, the cache, the decoders and the promises *)

(** What the entry does to its collaborators, in the order of the calls.
    A call of [resolve] or [reject] on the deferred carries the entry as
    its observers find it at that moment. *)
Inductive Effect : Type :=
| ResourceCache_loadBufferView (bv : BufferViewCacheResource)
    (gltf : option Gltf.t) (bufferViewId : option nat)
    (gltfResource : Resource) (baseResource : BaseResource) (keepResident : bool)
| ResourceCache_unload (bv : BufferViewCacheResource)
| Decoder_call (call : DecoderCall Resource)
| Promise_resolve (self : GltfImageCacheResource)
| Promise_reject (self : GltfImageCacheResource) (reason : JsError).

(** A promise that the entry waits for, with the variables that its
    handlers close over. *)
Inductive Task : Type :=
| AwaitBufferView (bufferViewCacheResource : BufferViewCacheResource)
| AwaitDecode
| AwaitUri (uri : option string).

Record World : Type := {
  self : GltfImageCacheResource;
  tasks : list Task;
  trace : list Effect;
  nextToken : nat
}.

Definition emit (f : Effect) (w : World) : World :=
  {| self := self w; tasks := tasks w; trace := trace w ++ [f];
     nextToken := nextToken w |}.

Definition update (f : GltfImageCacheResource -> GltfImageCacheResource)
    (w : World) : World :=
  {| self := f (self w); tasks := tasks w; trace := trace w;
     nextToken := nextToken w |}.

Definition with_tasks (f : list Task -> list Task) (w : World) : World :=
  {| self := self w; tasks := f (tasks w); trace := trace w;
     nextToken := nextToken w |}.

Definition set_bufferViewCacheResource (v : option BufferViewCacheResource)
    (e : GltfImageCacheResource) : GltfImageCacheResource :=
  {| _gltfResource := _gltfResource e; _baseResource := _baseResource e;
     _gltf := _gltf e; _bufferViewId := _bufferViewId e; _uri := _uri e;
     _cacheKey := _cacheKey e; _bufferViewCacheResource := v;
     _image := _image e; _state := _state e; _promise := _promise e |}.

Definition set_uri (v : option string) (e : GltfImageCacheResource)
  : GltfImageCacheResource :=
  {| _gltfResource := _gltfResource e; _baseResource := _baseResource e;
     _gltf := _gltf e; _bufferViewId := _bufferViewId e; _uri := v;
     _cacheKey := _cacheKey e;
     _bufferViewCacheResource := _bufferViewCacheResource e;
     _image := _image e; _state := _state e; _promise := _promise e |}.

Definition set_image (v : option DecodedImage) (e : GltfImageCacheResource)
  : GltfImageCacheResource :=
  {| _gltfResource := _gltfResource e; _baseResource := _baseResource e;
     _gltf := _gltf e; _bufferViewId := _bufferViewId e; _uri := _uri e;
     _cacheKey := _cacheKey e;
     _bufferViewCacheResource := _bufferViewCacheResource e;
     _image := v; _state := _state e; _promise := _promise e |}.

Definition set_gltf (v : option Gltf.t) (e : GltfImageCacheResource)
  : GltfImageCacheResource :=
  {| _gltfResource := _gltfResource e; _baseResource := _baseResource e;
     _gltf := v; _bufferViewId := _bufferViewId e; _uri := _uri e;
     _cacheKey := _cacheKey e;
     _bufferViewCacheResource := _bufferViewCacheResource e;
     _image := _image e; _state := _state e; _promise := _promise e |}.

Definition set_state (v : CacheResourceState) (e : GltfImageCacheResource)
  : GltfImageCacheResource :=
  {| _gltfResource := _gltfResource e; _baseResource := _baseResource e;
     _gltf := _gltf e; _bufferViewId := _bufferViewId e; _uri := _uri e;
     _cacheKey := _cacheKey e;
     _bufferViewCacheResource := _bufferViewCacheResource e;
     _image := _image e; _state := v; _promise := _promise e |}.

Definition set_promise (v : Deferred) (e : GltfImageCacheResource)
  : GltfImageCacheResource :=
  {| _gltfResource := _gltfResource e; _baseResource := _baseResource e;
     _gltf := _gltf e; _bufferViewId := _bufferViewId e; _uri := _uri e;
     _cacheKey := _cacheKey e;
     _bufferViewCacheResource := _bufferViewCacheResource e;
     _image := _image e; _state := _state e; _promise := v |}.

(** Modelled from the spec: the settling of the deferred of
    [ThirdParty/when.js], "a second settlement attempt is a no-op": a
    pending deferred takes the outcome, a settled one stays as it is. *)
Definition settle (outcome : Deferred) (e : GltfImageCacheResource)
  : GltfImageCacheResource :=
  match _promise e with
  | Pending => set_promise outcome e
  | _ => e
  end.

(** [this._promise.resolve(this)]: the deferred resolves to the entry
    itself. *)
Definition promise_resolve (w : World) : World :=
  let w := emit (Promise_resolve (self w)) w in
  update (settle Resolved) w.

(** [this._promise.reject(reason)] *)
Definition promise_reject (reason : JsError) (w : World) : World :=
  let w := emit (Promise_reject (self w) reason) w in
  update (settle (Rejected reason)) w.

Definition newline : string := String (ascii_of_nat 10) EmptyString.

(** Modelled from the spec: [CacheResource.getError] of
    [Scene/CacheResource.js], failures are "wrapped with a human-readable
    context message": the message of the new error starts with the context
    message. How the error that caused it is added to the message is not
    said by the specification; the model appends its message on a new
    line, and the properties below state the rejections through
    [getError] and use of its result only that it contains the context
    message. *)
Definition getError (error : option JsError) (errorMessage : string) : JsError :=
  RuntimeError match error with
               | Some e => (errorMessage ++ newline ++ message e)%string
               | None => errorMessage
               end.

(** [String(v)] as in ["..." + v]. *)
Definition to_string (v : option string) : string :=
  match v with
  | Some s => s
  | None => "undefined"
  end.

Definition unload (w : World) : World :=
  let w := match _bufferViewCacheResource (self w) with
           | Some bv => emit (ResourceCache_unload bv) w
           | None => w
           end in
  let w := update (set_bufferViewCacheResource None) w in
  let w := update (set_uri None) w in
  let w := update (set_image None) w in
  update (set_gltf None) w.

(** [GltfImageCacheResource.prototype.unload] *)
Definition prototype_unload (w : World) : World :=
  let w := unload w in
  update (set_state UNLOADED) w.

Definition handleError (error : option JsError) (errorMessage : string)
    (w : World) : World :=
  let w := unload w in
  let w := update (set_state FAILED) w in
  promise_reject (getError error errorMessage) w.

Definition fresh_bufferView (w : World) : BufferViewCacheResource * World :=
  ({| token := nextToken w |},
   {| self := self w; tasks := tasks w; trace := trace w;
      nextToken := S (nextToken w) |}).

Definition loadFromBufferView (w : World) : World :=
  let e := self w in
  let '(bufferViewCacheResource, w) := fresh_bufferView w in
  let w := emit (ResourceCache_loadBufferView bufferViewCacheResource
                   (_gltf e) (_bufferViewId e) (_gltfResource e)
                   (_baseResource e) false) w in
  let w := update (set_bufferViewCacheResource (Some bufferViewCacheResource)) w in
  let w := update (set_state LOADING) w in
  with_tasks (fun ts => ts ++ [AwaitBufferView bufferViewCacheResource]) w.

Definition loadFromUri (w : World) : World :=
  let baseResource := _baseResource (self w) in
  let uri := _uri (self w) in
  let resource := getDerivedResource baseResource uri in
  let w := update (set_state LOADING) w in
  let w := emit (Decoder_call (UriDispatch.loadImageFromUri resource)) w in
  with_tasks (fun ts => ts ++ [AwaitUri uri]) w.

(** [GltfImageCacheResource.prototype.load] *)
Definition load (w : World) : World :=
  if defined (_bufferViewId (self w)) then loadFromBufferView w
  else loadFromUri w.

(** The handler of [bufferViewCacheResource.promise.then], for the task
    at index [k]. An exception of the handler rejects the promise that
    [then] returned, which runs the handler of [otherwise]. *)
Definition then_bufferView (k : nat) (typedArray : TypedArray.t) (w : World)
  : World :=
  if CacheResourceState_eqb (_state (self w)) UNLOADED then
    with_tasks (delete k) (unload w)
  else
    match Sniff.loadImageFromBufferTypedArray typedArray with
    | Normal call =>
        with_tasks (<[k := AwaitDecode]>) (emit (Decoder_call call) w)
    | Throw error =>
        handleError (Some error) "Failed to load embedded image"
          (with_tasks (delete k) w)
    end.

(** The handler of [then] on the promise of a decoder, on both paths. *)
Definition then_image (image : DecodedImage) (w : World) : World :=
  if CacheResourceState_eqb (_state (self w)) UNLOADED then
    unload w
  else
    let w := unload w in
    let w := update (set_image (Some image)) w in
    let w := update (set_state READY) w in
    promise_resolve w.

(** The handlers of [otherwise]. *)
Definition otherwise (t : Task) (error : option JsError) (w : World) : World :=
  match t with
  | AwaitBufferView _ | AwaitDecode =>
      handleError error "Failed to load embedded image" w
  | AwaitUri uri =>
      handleError error ("Failed to load image:" ++ to_string uri)%string w
  end.

(** What happens to the entry: its owner calls a method, or a promise
    that the entry waits for settles. *)
Inductive Event : Type :=
| Call_load
| Call_unload
| Fulfil_bufferView (k : nat) (typedArray : TypedArray.t)
| Fulfil_image (k : nat) (image : DecodedImage)
| Fail (k : nat) (error : option JsError).

Definition step (w : World) (ev : Event) : World :=
  match ev with
  | Call_load => load w
  | Call_unload => prototype_unload w
  | Fulfil_bufferView k typedArray =>
      match tasks w !! k with
      | Some (AwaitBufferView _) => then_bufferView k typedArray w
      | _ => w
      end
  | Fulfil_image k image =>
      match tasks w !! k with
      | Some AwaitDecode | Some (AwaitUri _) =>
          then_image image (with_tasks (delete k) w)
      | _ => w
      end
  | Fail k error =>
      match tasks w !! k with
      | Some t => otherwise t error (with_tasks (delete k) w)
      | None => w
      end
  end.

Definition run (w : World) (evs : list Event) : World := fold_left step evs w.

(** The world of an entry that was just constructed. *)
Definition world_of (e : GltfImageCacheResource) : World :=
  {| self := e; tasks := []; trace := []; nextToken := 0 |}.

(** An event that resumes a handler of [then]. *)
Definition resumes_success (w : World) (ev : Event) : bool :=
  match ev with
  | Fulfil_bufferView k _ =>
      match tasks w !! k with
      | Some (AwaitBufferView _) => true
      | _ => false
      end
  | Fulfil_image k _ =>
      match tasks w !! k with
      | Some AwaitDecode | Some (AwaitUri _) => true
      | _ => false
      end
  | _ => false
  end.

Definition is_load (ev : Event) : bool :=
  match ev with
  | Call_load => true
  | _ => false
  end.

(** The tokens that the entry gave back to the cache. *)
Definition released (tr : list Effect) : list nat :=
  omap (fun f => match f with
                 | ResourceCache_unload bv => Some (token bv)
                 | _ => None
                 end) tr.

(** The tokens that the entry got from the cache. *)
Definition acquired (tr : list Effect) : list nat :=
  omap (fun f => match f with
                 | ResourceCache_loadBufferView bv _ _ _ _ _ => Some (token bv)
                 | _ => None
                 end) tr.

(** How often the deferred changes along a run. *)
Fixpoint settlements (w : World) (evs : list Event) : nat :=
  match evs with
  | [] => 0
  | ev :: evs' =>
      (if settled (_promise (self w)) then 0
       else if settled (_promise (self (step w ev))) then 1 else 0)
      + settlements (step w ev) evs'
  end.

(** [s] occurs in [m]. *)
Definition contains (m s : string) : Prop :=
  exists pre post, m = (pre ++ s ++ post)%string.

(** ** Invariants of the runs *)

Definition is_resolve (f : Effect) : bool :=
  match f with
  | Promise_resolve _ => true
  | _ => false
  end.

(** An effect on a decoder or on the deferred, not on the cache. *)
Definition quiet (f : Effect) : Prop :=
  released [f] = [] /\ acquired [f] = [].

(** The discipline of the cache: the tokens are fresh, the entry gives
    back only what it got, no token twice, and never the one it holds. *)
Definition cache_ok (w : World) : Prop :=
  NoDup (released (trace w)) /\
  (forall t, t ∈ acquired (trace w) -> t < nextToken w) /\
  (forall t, t ∈ released (trace w) -> t ∈ acquired (trace w)) /\
  (forall bv, _bufferViewCacheResource (self w) = Some bv ->
     token bv ∈ acquired (trace w) /\ token bv ∉ released (trace w)).

(** After the only call of [load]: at most one promise is awaited, and
    while the entry is loading nothing has been published. *)
Definition loading_once (w : World) : Prop :=
  length (tasks w) <= 1 /\
  (_state (self w) = LOADING ->
     _promise (self w) = Pending /\ _image (self w) = None /\
     Forall (fun f => is_resolve f = false) (trace w)).

(** After [unload] in the middle of the only load: whatever is still
    awaited finds the entry unloaded, and nothing was or is published. *)
Definition cancelled (w : World) : Prop :=
  length (tasks w) <= 1 /\
  (tasks w <> [] -> _state (self w) = UNLOADED) /\
  _promise (self w) <> Resolved /\
  _image (self w) = None /\
  _bufferViewCacheResource (self w) = None /\
  Forall (fun f => is_resolve f = false) (trace w).

(** The failure that an event brings about: the task whose [otherwise]
    handler runs and the error it gets. The handler runs when the awaited
    promise is rejected, and when the handler of [then] throws, which it
    does for bytes without a valid header unless the entry is unloaded. *)
Definition failure (w : World) (ev : Event) : option (Task * option JsError) :=
  match ev with
  | Fail k error => t ← tasks w !! k; Some (t, error)
  | Fulfil_bufferView k typedArray =>
      match tasks w !! k with
      | Some (AwaitBufferView bv) =>
          if CacheResourceState_eqb (_state (self w)) UNLOADED then None
          else match Sniff.loadImageFromBufferTypedArray (R := Resource) typedArray with
               | Throw e => Some (AwaitBufferView bv, Some e)
               | Normal _ => None
               end
      | _ => None
      end
  | _ => None
  end.

(** The entry after the cleanup of [unload]. *)
Definition cleaned (e : GltfImageCacheResource) : Prop :=
  _bufferViewCacheResource e = None /\ _uri e = None /\
  _image e = None /\ _gltf e = None.

(** The calls of [resourceCache.unload] that [unload] makes. *)
Definition release_of (e : GltfImageCacheResource) : list Effect :=
  match _bufferViewCacheResource e with
  | Some bv => [ResourceCache_unload bv]
  | None => []
  end.

(** ** The priority order of the variants, as the specification words it *)

(** The variants of an image in priority order, each with the flag of the
    capability set that the constructor tests for it. *)
Definition variants_by_priority (image : Image.t)
    (formats : SupportedImageFormats.t) : list (bool * option Variant.t) :=
  match Image.extras image ≫= Extras.compressedImage3DTiles with
  | Some tiles =>
      [ (SupportedImageFormats.s3tc formats, CompressedImage3DTiles.crunch tiles);
        (SupportedImageFormats.s3tc formats, CompressedImage3DTiles.s3tc tiles);
        (SupportedImageFormats.pvrtc formats, CompressedImage3DTiles.pvrtc1 tiles);
        (SupportedImageFormats.etc1 formats, CompressedImage3DTiles.etc1 tiles) ]
  | None => []
  end.

(** "Only the first matching supported variant in priority order is used;
    unsupported or absent variants are skipped silently." *)
Definition first_supported_variant (image : Image.t)
    (formats : SupportedImageFormats.t) : option Variant.t :=
  head (omap (fun '(supports, v) => supported supports v)
             (variants_by_priority image formats)).

(** The entry [e] takes its source from the variant [v] of [image]: the
    buffer view of [v] if it has one, in the place of the one of the
    image, whose uri stays; else the uri of [v] in the place of the one of
    the image, whose buffer view stays. *)
Definition takes_source (e : GltfImageCacheResource) (image : Image.t)
    (v : Variant.t) : Prop :=
  match Variant.bufferView v with
  | Some id => _bufferViewId e = Some id /\ _uri e = Image.uri image
  | None => _bufferViewId e = Image.bufferView image /\ _uri e = Variant.uri v
  end.

(** ** Sample data *)

Module Sample.

Definition from_uri (u : string) : Variant.t :=
  {| Variant.bufferView := None; Variant.uri := Some u |}.

Definition variantA := from_uri "wood.crn".
Definition variantB := from_uri "wood-s3tc.ktx".
Definition variantC := from_uri "wood-pvrtc.ktx".
Definition variantD := from_uri "wood-etc1.ktx".

Definition four_tiles : CompressedImage3DTiles.t :=
  {| CompressedImage3DTiles.crunch := Some variantA;
     CompressedImage3DTiles.s3tc := Some variantB;
     CompressedImage3DTiles.pvrtc1 := Some variantC;
     CompressedImage3DTiles.etc1 := Some variantD |}.

Definition four_variants : Extras.t :=
  {| Extras.compressedImage3DTiles := Some four_tiles |}.

(** An external image with the four variants. *)
Definition external_image : Image.t :=
  {| Image.bufferView := None; Image.uri := Some "wood.png";
     Image.extras := Some four_variants |}.

(** An embedded image whose only variant is external. *)
Definition embedded_image : Image.t :=
  {| Image.bufferView := Some 3; Image.uri := None;
     Image.extras :=
       Some {| Extras.compressedImage3DTiles :=
                 Some {| CompressedImage3DTiles.crunch := Some variantA;
                         CompressedImage3DTiles.s3tc := None;
                         CompressedImage3DTiles.pvrtc1 := None;
                         CompressedImage3DTiles.etc1 := None |} |} |}.

(** An embedded image without variants. *)
Definition plain_image : Image.t :=
  {| Image.bufferView := Some 5; Image.uri := None; Image.extras := None |}.

(** An external image whose crunch variant has a buffer view and a uri,
    and whose pvrtc variant has a buffer view. *)
Definition packed_image : Image.t :=
  {| Image.bufferView := None; Image.uri := Some "wood.png";
     Image.extras :=
       Some {| Extras.compressedImage3DTiles :=
                 Some {| CompressedImage3DTiles.crunch :=
                           Some {| Variant.bufferView := Some 7;
                                   Variant.uri := Some "wood.crn" |};
                         CompressedImage3DTiles.s3tc := Some variantB;
                         CompressedImage3DTiles.pvrtc1 :=
                           Some {| Variant.bufferView := Some 9;
                                   Variant.uri := None |};
                         CompressedImage3DTiles.etc1 := Some variantD |} |} |}.

Definition model : Gltf.t :=
  {| Gltf.images := [external_image; embedded_image; plain_image; packed_image] |}.

(** Support for s3tc and pvrtc only. *)
Definition s3tc_and_pvrtc : SupportedImageFormats.t :=
  {| SupportedImageFormats.webp := false; SupportedImageFormats.s3tc := true;
     SupportedImageFormats.pvrtc := true; SupportedImageFormats.etc1 := false |}.

Definition folder : BaseResource :=
  {| base := {| url := "https://example.com/model/" |};
     getDerivedResource := fun uri =>
       {| url := ("https://example.com/model/" ++ to_string uri)%string |} |}.

Definition options (imageId : nat) : Options :=
  {| gltf := model; imageId := imageId;
     gltfResource := {| url := "https://example.com/model/model.gltf" |};
     baseResource := folder;
     supportedImageFormats := s3tc_and_pvrtc;
     cacheKey := "image:model.gltf" |}.

(** The entries of the three images, as the constructor leaves them. *)
Definition entry (imageId : nat) (bufferViewId : option nat)
    (uri : option string) : GltfImageCacheResource :=
  {| _gltfResource := {| url := "https://example.com/model/model.gltf" |};
     _baseResource := folder;
     _gltf := Some model;
     _bufferViewId := bufferViewId;
     _uri := uri;
     _cacheKey := "image:model.gltf";
     _bufferViewCacheResource := None;
     _image := None;
     _state := UNLOADED;
     _promise := Pending |}.

(** Support for pvrtc and etc1 only. *)
Definition pvrtc_and_etc1 : SupportedImageFormats.t :=
  {| SupportedImageFormats.webp := true; SupportedImageFormats.s3tc := false;
     SupportedImageFormats.pvrtc := true; SupportedImageFormats.etc1 := true |}.

Definition options_pvrtc (imageId : nat) : Options :=
  {| gltf := model; imageId := imageId;
     gltfResource := {| url := "https://example.com/model/model.gltf" |};
     baseResource := folder;
     supportedImageFormats := pvrtc_and_etc1;
     cacheKey := "image:model.gltf" |}.

Definition external_entry := entry 0 None (Some "wood.crn").
Definition packed_entry := entry 3 (Some 7) (Some "wood.png").
Definition packed_pvrtc_entry := entry 3 (Some 9) (Some "wood.png").
Definition embedded_entry := entry 1 (Some 3) (Some "wood.crn").
Definition plain_entry := entry 2 (Some 5) None.

End Sample.

(** ** The accessors of the entry *)

Module Getter.

(** [promise]: the promise of the deferred. *)
Definition promise (e : GltfImageCacheResource) : Deferred := _promise e.

(** [cacheKey] *)
Definition cacheKey (e : GltfImageCacheResource) : string := _cacheKey e.

(** [image] *)
Definition image (e : GltfImageCacheResource) : option DecodedImage := _image e.

End Getter.

(** ** Vocabulary for the properties of the runs *)

(** Which collaborator a call goes to. *)
Inductive Decoder : Type := KTX_decoder | CRN_decoder | Raster_decoder | Image_fetch.

Definition decoder_of {R} (call : DecoderCall R) : Decoder :=
  match call with
  | loadKTX_typedArray _ | loadKTX_resource _ => KTX_decoder
  | loadCRN_typedArray _ | loadCRN_resource _ => CRN_decoder
  | loadImageFromTypedArray _ _ _ => Raster_decoder
  | fetchImage _ => Image_fetch
  end.

(** The call that the inline path makes for bytes with the signature of
    the format [f]. *)
Definition inline_call {R} (f : Sniff.ImageFormat) (typedArray : TypedArray.t)
  : DecoderCall R :=
  match f with
  | Sniff.KTX => loadKTX_typedArray typedArray
  | Sniff.CRN => loadCRN_typedArray typedArray
  | _ => loadImageFromTypedArray typedArray (Sniff.mime f) false
  end.

(** The entry holds nothing that [unload] frees, its image apart. *)
Definition freed (e : GltfImageCacheResource) : Prop :=
  _bufferViewCacheResource e = None /\ _uri e = None /\ _gltf e = None.

(** What the owner of an entry can rely on between two events. *)
Definition coherent (e : GltfImageCacheResource) : Prop :=
  (_state e = READY -> _image e <> None) /\
  (_image e <> None -> (_state e = READY \/ _state e = LOADING)) /\
  ((_state e = READY \/ _state e = FAILED) -> freed e).

(** What the observers of the deferred find when it is settled. *)
Definition published (f : Effect) : Prop :=
  match f with
  | Promise_resolve e => _state e = READY /\ _image e <> None /\ freed e
  | Promise_reject e _ => _state e = FAILED /\ cleaned e
  | _ => True
  end.

(** The calls of [load] in a list of events. *)
Definition count_loads (evs : list Event) : nat :=
  length (List.filter is_load evs).

(** The token [t] was handed out and the entry lost it: it does not hold
    it and has not given it back. *)
Definition leaked (t : nat) (w : World) : Prop :=
  t < nextToken w /\
  (t ∉ released (trace w)) /\
  _bufferViewCacheResource (self w) <> Some {| token := t |}.

(** The calls of [resolve] and [reject] in a trace. *)
Definition is_settle (f : Effect) : bool :=
  match f with
  | Promise_resolve _ | Promise_reject _ _ => true
  | _ => false
  end.

Definition attempts (tr : list Effect) : nat :=
  length (List.filter is_settle tr).

(** An entry that was not loaded yet. *)
Definition untouched (w : World) : Prop :=
  tasks w = [] /\ trace w = [] /\
  _state (self w) = UNLOADED /\ _promise (self w) = Pending /\
  _image (self w) = None /\ _bufferViewCacheResource (self w) = None.

(** An entry on the uri path that has not called the cache. *)
Definition cache_free (w : World) : Prop :=
  _bufferViewId (self w) = None /\
  _bufferViewCacheResource (self w) = None /\
  Forall quiet (trace w).

(** * Properties *)

(** ** Format sniffing *)

Section SniffFacts.
Import TypedArray Sniff.
Local Open Scope Z_scope.

Lemma at_eq_cons_0 (x v : Z) (l : list Z) : at_eq (x :: l) 0 v = Z.eqb x v.
Proof. reflexivity. Qed.

Lemma at_eq_cons_S (x v : Z) (l : list Z) (i : nat) :
  at_eq (x :: l) (S i) v = at_eq l i v.
Proof. reflexivity. Qed.

(** A byte sequence of at least twelve bytes, spelled out. *)
Lemma twelve_bytes (l : list Z) :
  (12 <= length l)%nat ->
  exists b0 b1 b2 b3 b4 b5 b6 b7 b8 b9 b10 b11 rest,
    l = b0 :: b1 :: b2 :: b3 :: b4 :: b5 :: b6 :: b7 ::
        b8 :: b9 :: b10 :: b11 :: rest.
Proof.
  intros H.
  do 12 (destruct l as [|? l]; [simpl in H; lia|]).
  repeat eexists.
Qed.

(** The signature decides the result, whatever the length. *)
Lemma sniff_has_header (f : ImageFormat) (bytes : list Z) :
  has_header f bytes -> getMimeTypeFromTypedArray bytes = Normal (mime f).
Proof.
  destruct f; simpl; intros H;
    repeat match type of H with
           | exists _, _ => destruct H as [? H]
           end;
    subst bytes; reflexivity.
Qed.

Ltac refute_with Hno :=
  first [ solve [apply (Hno BMP); simpl; repeat eexists]
        | solve [apply (Hno GIF); simpl; repeat eexists]
        | solve [apply (Hno JPEG); simpl; repeat eexists]
        | solve [apply (Hno PNG); simpl; repeat eexists]
        | solve [apply (Hno KTX); simpl; repeat eexists]
        | solve [apply (Hno CRN); simpl; repeat eexists]
        | solve [apply (Hno Basis); simpl; repeat eexists]
        | solve [apply (Hno WebP); simpl; repeat eexists] ].

Lemma sniff_no_header (bytes : list Z) :
  (12 <= length bytes)%nat ->
  (forall f, ~ has_header f bytes) ->
  getMimeTypeFromTypedArray bytes
  = Throw (RuntimeError "Image data does not have valid header").
Proof.
  intros Hlen Hno.
  destruct (twelve_bytes bytes Hlen)
    as (b0 & b1 & b2 & b3 & b4 & b5 & b6 & b7 & b8 & b9 & b10 & b11 & rest & ->).
  unfold getMimeTypeFromTypedArray, subarray.
  cbn [take drop Nat.sub].
  rewrite ?at_eq_cons_S, ?at_eq_cons_0.
  repeat match goal with
  | |- context [Z.eqb ?a ?b] =>
      destruct (Z.eqb_spec a b) as [Heq|?];
      [try discriminate Heq; subst|]; cbn [andb]
  end;
  first [ reflexivity | exfalso; refute_with Hno ].
Qed.

(** Whatever the sniffer returns is one of the eight tags. *)
Lemma sniff_recognized (bytes : list Z) (m : string) :
  getMimeTypeFromTypedArray bytes = Normal m -> exists f, m = mime f.
Proof.
  unfold getMimeTypeFromTypedArray.
  repeat match goal with
  | |- context [if ?c then _ else _] => destruct c
  end; intros [= <-];
  first [ by exists BMP | by exists GIF | by exists JPEG | by exists PNG
        | by exists KTX | by exists CRN | by exists Basis | by exists WebP ].
Qed.

End SniffFacts.

(** C6. On every byte sequence of at least twelve bytes,
    [getMimeTypeFromTypedArray] returns the tag of the format whose
    signature the sequence starts with: 42 49 for BMP, 47 49 for GIF,
    FF D8 for JPEG, 89 50 for PNG, AB 4B for KTX, 48 78 for CRN, 73 42 for
    Basis, and "RIFF" at 0 with "WEBP" at 8 for WebP; when the sequence
    starts with none of them it throws the error whose message says that
    the image data does not have a valid header. *)
Theorem sniff_table (typedArray : list Z) :
  12 <= length typedArray ->
  (forall f, Sniff.has_header f typedArray ->
     Sniff.getMimeTypeFromTypedArray typedArray = Normal (Sniff.mime f)) /\
  ((forall f, ~ Sniff.has_header f typedArray) ->
     Sniff.getMimeTypeFromTypedArray typedArray
     = Throw (RuntimeError "Image data does not have valid header")).
Proof.
  intros Hlen; split.
  - intros f; apply sniff_has_header.
  - apply sniff_no_header, Hlen.
Qed.

Lemma sniff_table_witness :
  12 <= length Sniff.png_header /\
  Sniff.getMimeTypeFromTypedArray Sniff.png_header = Normal "image/png".
Proof.
  assert (Hlen : 12 <= length Sniff.png_header) by (simpl; lia).
  split; [exact Hlen|].
  apply (proj1 (sniff_table Sniff.png_header Hlen) Sniff.PNG).
  simpl. eexists. reflexivity.
Defined.

(** The other half of C6 on a concrete input: twelve zero bytes have no
    valid header. *)
Example sniff_zeroes :
  Sniff.getMimeTypeFromTypedArray (replicate 12 0%Z)
  = Throw (RuntimeError "Image data does not have valid header").
Proof. reflexivity. Qed.

(** C7. Whatever tag the sniffer returns for a byte sequence is one of the
    eight recognized ones; for KTX the inline path calls the KTX decoder
    on the bytes, for CRN the CRN decoder, and for every other tag the
    generic raster decoder with the bytes, the sniffed tag as format and
    [flipY] false. *)
Theorem buffer_dispatch (typedArray : list Z) (mimeType : string) :
  Sniff.getMimeTypeFromTypedArray typedArray = Normal mimeType ->
  exists f,
    mimeType = Sniff.mime f /\
    Sniff.loadImageFromBufferTypedArray (R := Resource) typedArray
    = Normal match f with
             | Sniff.KTX => loadKTX_typedArray typedArray
             | Sniff.CRN => loadCRN_typedArray typedArray
             | _ => loadImageFromTypedArray typedArray mimeType false
             end.
Proof.
  intros H. destruct (sniff_recognized _ _ H) as [f ->].
  exists f. split; [reflexivity|].
  unfold Sniff.loadImageFromBufferTypedArray. rewrite H.
  destruct f; reflexivity.
Qed.

Lemma buffer_dispatch_witness :
  exists f,
    "image/ktx" = Sniff.mime f /\
    Sniff.loadImageFromBufferTypedArray (R := Resource) Sniff.ktx_header
    = Normal match f with
             | Sniff.KTX => loadKTX_typedArray Sniff.ktx_header
             | Sniff.CRN => loadCRN_typedArray Sniff.ktx_header
             | _ => loadImageFromTypedArray Sniff.ktx_header "image/ktx" false
             end.
Proof. apply (buffer_dispatch Sniff.ktx_header "image/ktx"). reflexivity. Defined.

(** An unrecognized header leaves the inline path with the exception of
    the sniffer: no decoder is called. *)
Example buffer_dispatch_throws :
  Sniff.loadImageFromBufferTypedArray (R := Resource) (replicate 12 0%Z)
  = Throw (RuntimeError "Image data does not have valid header").
Proof. reflexivity. Qed.

(** ** Dispatch on the uri *)

Section RegExpFacts.
Import RegExp.

Lemma in_all_ascii (c : ascii) : In c all_ascii.
Proof.
  rewrite <- (ascii_nat_embedding c). apply in_map, in_seq.
  pose proof (nat_ascii_bounded c). lia.
Qed.

Lemma same_letter_b_spec (a b : ascii) :
  same_letter_b a b = true <-> same_letter a b.
Proof.
  unfold same_letter_b, same_letter.
  rewrite orb_true_iff, Ascii.eqb_eq, existsb_exists. split.
  - intros [H|([x y] & Hin & H)]; [by left|right].
    cbn [fst snd] in H.
    rewrite orb_true_iff, !andb_true_iff, !Ascii.eqb_eq in H.
    destruct H as [[-> ->]|[-> ->]]; [by left|by right].
  - intros [H|[H|H]]; [by left| |]; right.
    + exists (a, b). split; [done|]. cbn [fst snd].
      by rewrite !(proj2 (Ascii.eqb_eq _ _) eq_refl).
    + exists (b, a). split; [done|]. cbn [fst snd].
      rewrite !(proj2 (Ascii.eqb_eq _ _) eq_refl). by rewrite orb_true_r.
Qed.

(** The matcher compares two characters as the table says: checked on
    all pairs of characters. *)
Lemma folding_agrees :
  forallb (fun a =>
    forallb (fun b =>
      Bool.eqb (Ascii.eqb (canonicalize true a) (canonicalize true b))
               (same_letter_b a b))
      all_ascii)
    all_ascii = true.
Proof. vm_compute. reflexivity. Qed.

(** With the flag [i] the matcher takes two characters for the same
    exactly when the table does. *)
Lemma canonicalize_same_letter (a b : ascii) :
  Ascii.eqb (canonicalize true a) (canonicalize true b) = true
  <-> same_letter a b.
Proof.
  rewrite <- same_letter_b_spec.
  pose proof (proj1 (forallb_forall _ _) folding_agrees a (in_all_ascii a)) as H.
  pose proof (proj1 (forallb_forall _ _) H b (in_all_ascii b)) as H'.
  apply Bool.eqb_prop in H'. by rewrite H'.
Qed.

Lemma same_letter_sym (a b : ascii) : same_letter a b -> same_letter b a.
Proof. unfold same_letter. intros [->|[H|H]]; auto. Qed.

(** A run of pattern characters matches exactly the prefixes that are the
    same up to case. *)
Lemma match_chars (p : string) : forall (start : bool) (input : string),
  match_alternative true (chars p) start input = true <-> prefix_ci p input.
Proof.
  unfold prefix_ci.
  induction p as [|c p IH]; intros start input; cbn [chars match_alternative].
  - split; [|reflexivity]. intros _. exists EmptyString, input. by split.
  - destruct input as [|d rest].
    + split; [discriminate|].
      intros (pre & suf & Heq & Hup).
      destruct pre; [destruct Hup|discriminate Heq].
    + rewrite andb_true_iff, canonicalize_same_letter, IH. split.
      * intros (Hc & pre & suf & -> & Hup).
        exists (String d pre), suf. split; [reflexivity|].
        split; [by apply same_letter_sym|done].
      * intros (pre & suf & Heq & Hup).
        destruct pre as [|d' pre]; [destruct Hup|].
        cbn in Heq. injection Heq as <- ->. destruct Hup as [Hd Hup].
        split; [by apply same_letter_sym|]. by exists pre, suf.
Qed.

(** A run of pattern characters followed by [$] matches exactly the
    input that is the same up to case. *)
Lemma match_chars_end (x : string) : forall (start : bool) (input : string),
  match_alternative true (chars x ++ [AssertEnd]) start input = true
  <-> same_text input x.
Proof.
  induction x as [|c x IH]; intros start input;
    cbn [chars app match_alternative same_text].
  - destruct input; cbn [same_text]; split; done.
  - destruct input as [|d rest]; cbn [same_text].
    + split; done.
    + rewrite andb_true_iff, canonicalize_same_letter, IH. split.
      * intros [H1 H2]. split; [by apply same_letter_sym|done].
      * intros [H1 H2]. split; [by apply same_letter_sym|done].
Qed.

Lemma suffix_ci_empty (x : string) :
  suffix_ci x EmptyString <-> same_text EmptyString x.
Proof.
  unfold suffix_ci. split.
  - intros (pre & suf & Heq & Hup).
    destruct pre; [|discriminate Heq]. cbn in Heq. by subst suf.
  - intros H. by exists EmptyString, EmptyString.
Qed.

Lemma suffix_ci_cons (x : string) (c : ascii) (rest : string) :
  suffix_ci x (String c rest)
  <-> same_text (String c rest) x \/ suffix_ci x rest.
Proof.
  unfold suffix_ci. split.
  - intros (pre & suf & Heq & Hup). destruct pre as [|d pre].
    + cbn in Heq. subst suf. by left.
    + injection Heq as <- ->. right. by exists pre, suf.
  - intros [H | (pre & suf & -> & Hup)].
    + by exists EmptyString, (String c rest).
    + by exists (String c pre), suf.
Qed.

(** The regular expression [/(^p)|(x$)/i] tests for the prefix [p] or
    the suffix [x], ignoring case. *)
Lemma exec_prefix_or_suffix (p x : string) (input : string) :
  forall start : bool,
    exec_from {| disjunction := [AssertStart :: chars p; chars x ++ [AssertEnd]];
                 ignoreCase := true |} start input = true
    <-> (start = true /\ prefix_ci p input) \/ suffix_ci x input.
Proof.
  induction input as [|c rest IH]; intros start;
    cbn [exec_from existsb disjunction ignoreCase match_alternative];
    rewrite !orb_true_iff, andb_true_iff, match_chars, match_chars_end.
  - rewrite suffix_ci_empty. intuition discriminate.
  - rewrite IH, suffix_ci_cons. intuition discriminate.
Qed.

Lemma test_ktxRegex (uri : string) :
  test UriDispatch.ktxRegex uri = true <-> UriDispatch.ktx_pattern uri.
Proof.
  unfold test, UriDispatch.ktxRegex, UriDispatch.ktx_pattern.
  rewrite exec_prefix_or_suffix. intuition.
Qed.

Lemma test_crnRegex (uri : string) :
  test UriDispatch.crnRegex uri = true <-> UriDispatch.crn_pattern uri.
Proof.
  unfold test, UriDispatch.crnRegex, UriDispatch.crn_pattern.
  rewrite exec_prefix_or_suffix. intuition.
Qed.

End RegExpFacts.

(** C8. [loadImageFromUri] chooses the decoder by the pattern that the
    locator matches, ignoring case: the prefix [data:image/ktx] or the
    suffix [.ktx] gives the KTX decoder; otherwise the prefix
    [data:image/crn] or the suffix [.crn] gives the CRN decoder; every
    other locator is fetched and decoded as a generic image. "Ignoring
    case" is [same_text], which is stated with the table of the letters
    and not with the matcher. *)
Theorem uri_dispatch (resource : Resource) :
  let uri := url resource in
  (UriDispatch.ktx_pattern uri ->
     UriDispatch.loadImageFromUri resource = loadKTX_resource resource) /\
  (~ UriDispatch.ktx_pattern uri -> UriDispatch.crn_pattern uri ->
     UriDispatch.loadImageFromUri resource = loadCRN_resource resource) /\
  (~ UriDispatch.ktx_pattern uri -> ~ UriDispatch.crn_pattern uri ->
     UriDispatch.loadImageFromUri resource = fetchImage resource).
Proof.
  intros uri. unfold UriDispatch.loadImageFromUri. fold uri.
  pose proof (test_ktxRegex uri) as Hk. pose proof (test_crnRegex uri) as Hc.
  destruct (RegExp.test UriDispatch.ktxRegex uri);
    destruct (RegExp.test UriDispatch.crnRegex uri);
    repeat split; intros; try reflexivity; exfalso; intuition discriminate.
Qed.

Lemma uri_dispatch_witness :
  UriDispatch.loadImageFromUri {| url := "textures/Wood.KTX" |}
  = loadKTX_resource {| url := "textures/Wood.KTX" |}.
Proof.
  apply (proj1 (uri_dispatch {| url := "textures/Wood.KTX" |})).
  right. exists "textures/Wood", ".KTX". split; [reflexivity|].
  cbn [RegExp.same_text]. repeat split; apply same_letter_b_spec; reflexivity.
Defined.

(** The locators of the test of the specification. *)
Example uri_dispatch_examples :
  UriDispatch.loadImageFromUri {| url := "texture.ktx" |}
  = loadKTX_resource {| url := "texture.ktx" |} /\
  UriDispatch.loadImageFromUri {| url := "data:image/ktx;base64,q0tUWCAxMbs=" |}
  = loadKTX_resource {| url := "data:image/ktx;base64,q0tUWCAxMbs=" |} /\
  UriDispatch.loadImageFromUri {| url := "texture.crn" |}
  = loadCRN_resource {| url := "texture.crn" |} /\
  UriDispatch.loadImageFromUri {| url := "texture.png" |}
  = fetchImage {| url := "texture.png" |} /\
  UriDispatch.loadImageFromUri {| url := "texture.ktx?v=2" |}
  = fetchImage {| url := "texture.ktx?v=2" |}.
Proof. repeat split. Qed.

(** The patterns tell the letters of either case from every other
    character: these locators match none. *)
Example uri_dispatch_near_misses :
  ~ UriDispatch.ktx_pattern "texture.png" /\
  ~ UriDispatch.ktx_pattern "texture.crn" /\
  ~ UriDispatch.ktx_pattern "texture.k[x" /\
  ~ UriDispatch.crn_pattern "texture.ktx" /\
  UriDispatch.ktx_pattern "DATA:Image/KTX;base64,q0tUWCAxMbs=" /\
  UriDispatch.crn_pattern "TEXTURE.CRN".
Proof.
  repeat split; try (rewrite <- test_ktxRegex; discriminate);
    try (rewrite <- test_crnRegex; discriminate);
    first [by apply test_ktxRegex | by apply test_crnRegex].
Qed.

(** ** The constructor *)

Lemma select_source_first_supported (image : Image.t)
    (formats : SupportedImageFormats.t) :
  select_source image formats
  = match first_supported_variant image formats with
    | Some v => use_variant v (Image.bufferView image, Image.uri image)
    | None => (Image.bufferView image, Image.uri image)
    end.
Proof.
  unfold select_source, first_supported_variant, variants_by_priority.
  destruct (Image.extras image ≫= Extras.compressedImage3DTiles) as [tiles|];
    [|reflexivity].
  destruct tiles as [[a|] [b|] [c|] [d|]], formats as [w [] [] []]; reflexivity.
Qed.

Lemma new_source (options : Options) (image : Image.t) :
  Gltf.images (gltf options) !! imageId options = Some image ->
  exists e,
    new_GltfImageCacheResource options = Normal e /\
    (_bufferViewId e, _uri e)
    = select_source image (supportedImageFormats options) /\
    _state e = UNLOADED /\ _promise e = Pending /\ _image e = None /\
    _bufferViewCacheResource e = None /\
    _baseResource e = baseResource options.
Proof.
  intros H. unfold new_GltfImageCacheResource. rewrite H.
  destruct (select_source image (supportedImageFormats options)) as [b u].
  eexists. split; [reflexivity|]. by repeat split.
Qed.

(** C4, as the claim states it, fails: with the four variants and support
    for s3tc and pvrtc only, the constructor takes the source of the crunch
    variant, the first of the priority order, not the one of the s3tc
    variant, the second. *)
Lemma format_priority_counterexample :
  supportedImageFormats (Sample.options 0) = Sample.s3tc_and_pvrtc /\
  Gltf.images (gltf (Sample.options 0)) !! 0 = Some Sample.external_image /\
  Image.extras Sample.external_image = Some Sample.four_variants /\
  new_GltfImageCacheResource (Sample.options 0) = Normal Sample.external_entry /\
  (_bufferViewId Sample.external_entry, _uri Sample.external_entry)
  = (None, Variant.uri Sample.variantA) /\
  (_bufferViewId Sample.external_entry, _uri Sample.external_entry)
  <> (Variant.bufferView Sample.variantB, Variant.uri Sample.variantB).
Proof. repeat split. discriminate. Qed.

(** C4, amended. The crunch variant (variant A) and the s3tc variant
    (variant B) are both tested against the flag [s3tc]. For an image with
    its four variants, constructed with a capability set that reports
    s3tc, whatever it reports for the rest, the entry takes its source
    from the crunch variant, not from the s3tc or the pvrtc variant: the
    buffer view of the crunch variant, if it has one, replaces the one of
    the image and the uri of the image stays; else the uri of the crunch
    variant replaces the one of the image and the buffer view of the image
    stays. The s3tc variant is used in this way when the image has no
    crunch variant. *)
Theorem format_priority (options : Options) (image : Image.t)
    (tiles : CompressedImage3DTiles.t) (b : Variant.t)
    (e : GltfImageCacheResource) :
  Gltf.images (gltf options) !! imageId options = Some image ->
  Image.extras image ≫= Extras.compressedImage3DTiles = Some tiles ->
  CompressedImage3DTiles.s3tc tiles = Some b ->
  SupportedImageFormats.s3tc (supportedImageFormats options) = true ->
  new_GltfImageCacheResource options = Normal e ->
  match CompressedImage3DTiles.crunch tiles with
  | Some a => takes_source e image a
  | None => takes_source e image b
  end.
Proof.
  intros Himg Htiles Hb Hs Hnew.
  destruct (new_source options image Himg) as (e' & He & Hsrc & _).
  rewrite Hnew in He. injection He as <-.
  unfold select_source in Hsrc. rewrite Htiles, Hs, Hb in Hsrc.
  unfold takes_source.
  unfold supported, use_variant in Hsrc.
  destruct (CompressedImage3DTiles.crunch tiles) as [a|].
  - destruct (Variant.bufferView a) as [id|];
      cbn [defined fst snd] in Hsrc; by injection Hsrc as -> ->.
  - destruct (Variant.bufferView b) as [id|];
      cbn [defined fst snd] in Hsrc; by injection Hsrc as -> ->.
Qed.

(** The crunch variant of the sample has a buffer view and a uri: the
    buffer view is taken and the uri of the image stays. *)
Lemma format_priority_witness :
  _bufferViewId Sample.packed_entry = Some 7 /\
  _uri Sample.packed_entry = Some "wood.png".
Proof.
  apply (format_priority (Sample.options 3) Sample.packed_image _
           Sample.variantB Sample.packed_entry eq_refl eq_refl eq_refl
           eq_refl eq_refl).
Defined.

(** The two other shapes of the crunch variant: without a buffer view its
    uri is taken, and the buffer view of the image stays when it has
    one. *)
Example format_priority_uri_only :
  takes_source Sample.external_entry Sample.external_image Sample.variantA /\
  (_bufferViewId Sample.external_entry, _uri Sample.external_entry)
  = (None, Some "wood.crn") /\
  takes_source Sample.embedded_entry Sample.embedded_image Sample.variantA /\
  (_bufferViewId Sample.embedded_entry, _uri Sample.embedded_entry)
  = (Some 3, Some "wood.crn").
Proof. by repeat split. Qed.

(** C5, as the claim states it, fails: the image carries a buffer view,
    its crunch variant is supported and supplies a uri. The constructor
    stores the uri of the variant and keeps the buffer view of the image,
    and [load] asks the cache for that buffer view: the uri of the variant
    is not fetched. *)
Lemma source_override_counterexample :
  Gltf.images (gltf (Sample.options 1)) !! 1 = Some Sample.embedded_image /\
  first_supported_variant Sample.embedded_image Sample.s3tc_and_pvrtc
  = Some Sample.variantA /\
  Variant.uri Sample.variantA = Some "wood.crn" /\
  new_GltfImageCacheResource (Sample.options 1) = Normal Sample.embedded_entry /\
  trace (load (world_of Sample.embedded_entry))
  = [ResourceCache_loadBufferView {| token := 0 |} (Some Sample.model) (Some 3)
       {| url := "https://example.com/model/model.gltf" |} Sample.folder false] /\
  tasks (load (world_of Sample.embedded_entry))
  = [AwaitBufferView {| token := 0 |}] /\
  load (world_of Sample.embedded_entry)
  <> loadFromUri (world_of Sample.embedded_entry).
Proof. repeat split. discriminate. Qed.

(** C5, amended. When the constructor selects the first supported present
    variant, [load] makes exactly one request. If the variant has a buffer
    view, that buffer view replaces the one of the image and [load] asks
    the cache for it. If the variant has no buffer view and the image has
    none either, the uri of the variant replaces the one of the image and
    [load] decodes the resource derived from that uri. *)
Theorem source_override (options : Options) (image : Image.t) (v : Variant.t)
    (e : GltfImageCacheResource) :
  Gltf.images (gltf options) !! imageId options = Some image ->
  first_supported_variant image (supportedImageFormats options) = Some v ->
  new_GltfImageCacheResource options = Normal e ->
  length (trace (load (world_of e))) = 1 /\
  length (tasks (load (world_of e))) = 1 /\
  (forall id, Variant.bufferView v = Some id ->
     _bufferViewId e = Some id /\
     trace (load (world_of e))
     = [ResourceCache_loadBufferView {| token := 0 |} (Some (gltf options))
          (Some id) (gltfResource options) (baseResource options) false] /\
     tasks (load (world_of e)) = [AwaitBufferView {| token := 0 |}]) /\
  (Variant.bufferView v = None -> Image.bufferView image = None ->
     _bufferViewId e = None /\ _uri e = Variant.uri v /\
     trace (load (world_of e))
     = [Decoder_call (UriDispatch.loadImageFromUri
                        (getDerivedResource (baseResource options)
                                            (Variant.uri v)))] /\
     tasks (load (world_of e)) = [AwaitUri (Variant.uri v)]).
Proof.
  intros Himg Hv Hnew.
  unfold new_GltfImageCacheResource in Hnew. rewrite Himg in Hnew.
  rewrite select_source_first_supported, Hv in Hnew. unfold use_variant in Hnew.
  destruct (Variant.bufferView v) as [id|] eqn:Hbv; simpl in Hnew;
    injection Hnew as <-.
  - split; [reflexivity|]. split; [reflexivity|]. split.
    + intros ? [= <-]. by repeat split.
    + discriminate.
  - unfold load; simpl.
    destruct (Image.bufferView image) as [id|]; repeat split;
      try reflexivity; try discriminate.
Qed.

Lemma source_override_witness :
  trace (load (world_of Sample.external_entry))
  = [Decoder_call (loadCRN_resource {| url := "https://example.com/model/wood.crn" |})].
Proof.
  pose proof (source_override (Sample.options 0) Sample.external_image
                Sample.variantA Sample.external_entry
                eq_refl eq_refl eq_refl) as (_ & _ & _ & H).
  destruct (H eq_refl eq_refl) as (_ & _ & Htrace & _).
  exact Htrace.
Defined.

(** ** The life cycle *)

(** What a decoder is called with does not matter for the life cycle:
    replace the calls by variables. *)
Ltac forget_calls :=
  repeat match goal with
  | |- context [@Sniff.loadImageFromBufferTypedArray ?R ?a] =>
      generalize (@Sniff.loadImageFromBufferTypedArray R a); intro
  | |- context [UriDispatch.loadImageFromUri ?r] =>
      generalize (UriDispatch.loadImageFromUri r); intro
  end.

Section Projections.
Context (w : World).

Lemma self_emit f : self (emit f w) = self w.
Proof. reflexivity. Qed.
Lemma tasks_emit f : tasks (emit f w) = tasks w.
Proof. reflexivity. Qed.
Lemma trace_emit f : trace (emit f w) = trace w ++ [f].
Proof. reflexivity. Qed.
Lemma nextToken_emit f : nextToken (emit f w) = nextToken w.
Proof. reflexivity. Qed.

Lemma self_update f : self (update f w) = f (self w).
Proof. reflexivity. Qed.
Lemma tasks_update f : tasks (update f w) = tasks w.
Proof. reflexivity. Qed.
Lemma trace_update f : trace (update f w) = trace w.
Proof. reflexivity. Qed.
Lemma nextToken_update f : nextToken (update f w) = nextToken w.
Proof. reflexivity. Qed.

Lemma self_with_tasks f : self (with_tasks f w) = self w.
Proof. reflexivity. Qed.
Lemma tasks_with_tasks f : tasks (with_tasks f w) = f (tasks w).
Proof. reflexivity. Qed.
Lemma trace_with_tasks f : trace (with_tasks f w) = trace w.
Proof. reflexivity. Qed.
Lemma nextToken_with_tasks f : nextToken (with_tasks f w) = nextToken w.
Proof. reflexivity. Qed.

Lemma unload_self :
  self (unload w)
  = set_gltf None (set_image None (set_uri None
      (set_bufferViewCacheResource None (self w)))).
Proof. unfold unload. by destruct (_bufferViewCacheResource (self w)). Qed.

Lemma unload_trace : trace (unload w) = trace w ++ release_of (self w).
Proof.
  unfold unload, release_of.
  destruct (_bufferViewCacheResource (self w)); simpl; by rewrite ?app_nil_r.
Qed.

Lemma unload_tasks : tasks (unload w) = tasks w.
Proof. unfold unload. by destruct (_bufferViewCacheResource (self w)). Qed.

Lemma unload_nextToken : nextToken (unload w) = nextToken w.
Proof. unfold unload. by destruct (_bufferViewCacheResource (self w)). Qed.

End Projections.

Create Rewrite HintDb world.
#[local] Hint Rewrite self_emit tasks_emit trace_emit nextToken_emit
  self_update tasks_update trace_update nextToken_update
  self_with_tasks tasks_with_tasks trace_with_tasks nextToken_with_tasks
  unload_self unload_trace unload_tasks unload_nextToken : world.

(** Unfold the handlers and project the world that they leave onto its
    fields. *)
Ltac handlers :=
  unfold load, loadFromBufferView, loadFromUri, prototype_unload,
    then_bufferView, then_image, otherwise, handleError, promise_resolve,
    promise_reject, fresh_bufferView;
  cbv beta iota zeta;
  forget_calls;
  repeat progress
    (autorewrite with world;
     unfold settle, release_of;
     cbn [self tasks trace nextToken _state _promise _image _uri _gltf
          _bufferViewCacheResource _bufferViewId _baseResource _gltfResource
          _cacheKey set_state set_promise set_image set_uri set_gltf
          set_bufferViewCacheResource settled CacheResourceState_eqb]).

(** Follow every branch of the handlers. *)
Ltac branches :=
  handlers;
  repeat (first [ match goal with
                  | |- context [CacheResourceState_eqb ?s _] =>
                      is_var s; destruct s
                  end
                | case_match ];
          handlers).

Section Primitives.

Lemma unload_cleaned (w : World) : cleaned (self (unload w)).
Proof. rewrite unload_self. by repeat split. Qed.

Lemma prototype_unload_self (w : World) :
  self (prototype_unload w)
  = set_state UNLOADED (set_gltf None (set_image None (set_uri None
      (set_bufferViewCacheResource None (self w))))).
Proof. unfold prototype_unload, update; cbn [self]. by rewrite unload_self. Qed.

Lemma prototype_unload_trace (w : World) :
  trace (prototype_unload w) = trace w ++ release_of (self w).
Proof. unfold prototype_unload, update; cbn [trace]. apply unload_trace. Qed.

Lemma prototype_unload_tasks (w : World) :
  tasks (prototype_unload w) = tasks w.
Proof. unfold prototype_unload, update; cbn [tasks]. apply unload_tasks. Qed.

Lemma released_app (a b : list Effect) :
  released (a ++ b) = released a ++ released b.
Proof. apply omap_app. Qed.

Lemma acquired_app (a b : list Effect) :
  acquired (a ++ b) = acquired a ++ acquired b.
Proof. apply omap_app. Qed.

Lemma cache_ok_emit (f : Effect) (w : World) :
  quiet f -> cache_ok w -> cache_ok (emit f w).
Proof.
  intros [Hr Ha]. unfold cache_ok; simpl.
  by rewrite released_app, acquired_app, Hr, Ha, !app_nil_r.
Qed.

Lemma cache_ok_update (f : GltfImageCacheResource -> GltfImageCacheResource)
    (w : World) :
  (forall bv, _bufferViewCacheResource (f (self w)) = Some bv ->
              _bufferViewCacheResource (self w) = Some bv) ->
  cache_ok w -> cache_ok (update f w).
Proof.
  intros Hf (H1 & H2 & H3 & H4). unfold cache_ok; simpl.
  repeat split; auto; apply H4; auto.
Qed.

Lemma cache_ok_with_tasks (f : list Task -> list Task) (w : World) :
  cache_ok w -> cache_ok (with_tasks f w).
Proof. done. Qed.

Lemma cache_ok_unload (w : World) : cache_ok w -> cache_ok (unload w).
Proof.
  intros (H1 & H2 & H3 & H4). unfold cache_ok.
  rewrite unload_self, unload_trace, unload_nextToken, released_app, acquired_app.
  unfold release_of.
  destruct (_bufferViewCacheResource (self w)) as [bv|] eqn:Hbv; simpl;
    rewrite ?app_nil_r.
  - destruct (H4 bv eq_refl) as [Hin Hout].
    repeat split; try done.
    + apply NoDup_app. repeat split; [done| |apply NoDup_singleton].
      intros t Ht ->%list_elem_of_singleton. done.
    + intros t [Ht| ->%list_elem_of_singleton]%elem_of_app; auto.
  - repeat split; try done.
Qed.

Lemma cache_ok_loadFromBufferView (w : World) :
  cache_ok w -> cache_ok (loadFromBufferView w).
Proof.
  intros (H1 & H2 & H3 & H4). unfold cache_ok, loadFromBufferView; simpl.
  rewrite released_app, acquired_app; simpl. rewrite app_nil_r.
  repeat split.
  - done.
  - intros t [Ht| ->%list_elem_of_singleton]%elem_of_app; [|lia].
    specialize (H2 t Ht). lia.
  - intros t Ht. apply elem_of_app. left. auto.
  - injection H as <-. apply elem_of_app. right. by apply list_elem_of_singleton.
  - injection H as <-. simpl. intros Hin.
    specialize (H2 _ (H3 _ Hin)). lia.
Qed.

Lemma cache_ok_promise_resolve (w : World) :
  cache_ok w -> cache_ok (promise_resolve w).
Proof.
  intros H. unfold promise_resolve. apply cache_ok_update.
  - unfold settle; simpl. by destruct (_promise (self w)).
  - by apply cache_ok_emit.
Qed.

Lemma cache_ok_promise_reject (reason : JsError) (w : World) :
  cache_ok w -> cache_ok (promise_reject reason w).
Proof.
  intros H. unfold promise_reject. apply cache_ok_update.
  - unfold settle; simpl. by destruct (_promise (self w)).
  - by apply cache_ok_emit.
Qed.

Lemma cache_ok_handleError (error : option JsError) (m : string) (w : World) :
  cache_ok w -> cache_ok (handleError error m w).
Proof.
  intros H. unfold handleError.
  apply cache_ok_promise_reject, cache_ok_update; [done|].
  by apply cache_ok_unload.
Qed.

Lemma cache_ok_then_image (image : DecodedImage) (w : World) :
  cache_ok w -> cache_ok (then_image image w).
Proof.
  intros H. unfold then_image.
  destruct (CacheResourceState_eqb _ _); [by apply cache_ok_unload|].
  apply cache_ok_promise_resolve.
  do 2 (apply cache_ok_update; [done|]). by apply cache_ok_unload.
Qed.

Lemma cache_ok_step (w : World) (ev : Event) :
  cache_ok w -> cache_ok (step w ev).
Proof.
  intros H. destruct ev as [| |k typedArray|k image|k error]; simpl.
  - unfold load. destruct (defined _).
    + by apply cache_ok_loadFromBufferView.
    + unfold loadFromUri. apply cache_ok_with_tasks, cache_ok_emit; [done|].
      by apply cache_ok_update.
  - unfold prototype_unload. apply cache_ok_update; [done|].
    by apply cache_ok_unload.
  - destruct (tasks w !! k) as [[bv| |uri]|]; try done.
    unfold then_bufferView. destruct (CacheResourceState_eqb _ _).
    + by apply cache_ok_with_tasks, cache_ok_unload.
    + destruct (Sniff.loadImageFromBufferTypedArray typedArray).
      * by apply cache_ok_with_tasks, cache_ok_emit.
      * by apply cache_ok_handleError, cache_ok_with_tasks.
  - destruct (tasks w !! k) as [[bv| |uri]|]; try done;
      by apply cache_ok_then_image, cache_ok_with_tasks.
  - destruct (tasks w !! k) as [[bv| |uri]|]; try done;
      by apply cache_ok_handleError, cache_ok_with_tasks.
Qed.

Lemma cache_ok_run (evs : list Event) : forall w : World,
  cache_ok w -> cache_ok (run w evs).
Proof.
  induction evs as [|ev evs IH]; intros w H; [done|].
  simpl. by apply IH, cache_ok_step.
Qed.

Lemma cache_ok_new (e : GltfImageCacheResource) :
  _bufferViewCacheResource e = None -> cache_ok (world_of e).
Proof.
  intros He. unfold cache_ok; simpl. rewrite He.
  repeat split; try done; try apply NoDup_nil_2; intros t Ht; inversion Ht.
Qed.

End Primitives.

(** C9. In every state of the entry, [unload] sets the state to
    [UNLOADED], gives the dependent buffer view back to the cache if the
    entry holds one, and clears the buffer view, the uri, the image and the
    glTF; a second call changes nothing and calls nothing; and along every
    run of an entry no acquisition of a buffer view is given back twice,
    and nothing is given back that was not acquired. *)
Theorem unload_idempotent :
  (forall w : World,
     _state (self (prototype_unload w)) = UNLOADED /\
     cleaned (self (prototype_unload w)) /\
     trace (prototype_unload w) = trace w ++ release_of (self w) /\
     tasks (prototype_unload w) = tasks w) /\
  (forall w : World,
     prototype_unload (prototype_unload w) = prototype_unload w) /\
  (forall (options : Options) (evs : list Event),
     match new_GltfImageCacheResource options with
     | Normal e =>
         NoDup (released (trace (run (world_of e) evs))) /\
         released (trace (run (world_of e) evs))
         ⊆ acquired (trace (run (world_of e) evs))
     | Throw _ => True
     end).
Proof.
  split; [|split].
  - intros w. unfold prototype_unload, update; cbn [self trace tasks].
    rewrite unload_trace, unload_tasks, unload_self. by repeat split.
  - intros [e ts tr n]. unfold prototype_unload, unload; simpl.
    by destruct (_bufferViewCacheResource e).
  - intros options evs.
    destruct (new_GltfImageCacheResource options) as [e|] eqn:Hnew; [|done].
    assert (Hbv : _bufferViewCacheResource e = None).
    { unfold new_GltfImageCacheResource in Hnew.
      destruct (_ !! _); [|done]. destruct (select_source _ _).
      by injection Hnew as <-. }
    destruct (cache_ok_run evs _ (cache_ok_new e Hbv)) as (H1 & _ & H3 & _).
    split; [done|]. intros t. apply H3.
Qed.

(** A run in which [unload] is called twice while the buffer view is
    awaited, and once more after it arrived: one acquisition, given back
    once. *)
Example unload_twice :
  trace (run (world_of Sample.plain_entry)
           [Call_load; Call_unload; Call_unload;
            Fulfil_bufferView 0 Sniff.png_header; Call_unload])
  = [ResourceCache_loadBufferView {| token := 0 |} (Some Sample.model) (Some 5)
       {| url := "https://example.com/model/model.gltf" |} Sample.folder false;
     ResourceCache_unload {| token := 0 |}].
Proof. reflexivity. Qed.

Section Failure.

Lemma string_app_assoc (a b c : string) :
  ((a ++ b) ++ c)%string = (a ++ (b ++ c))%string.
Proof. induction a as [|x a IH]; simpl; [done|by rewrite IH]. Qed.

Lemma string_app_nil_r (a : string) : (a ++ EmptyString)%string = a.
Proof. induction a as [|x a IH]; simpl; [done|by rewrite IH]. Qed.

Lemma getError_contains (error : option JsError) (pre s : string) :
  contains (message (getError error (pre ++ s)%string)) s.
Proof.
  destruct error as [e|]; simpl.
  - exists pre, (newline ++ message e)%string. by rewrite string_app_assoc.
  - exists pre, EmptyString. by rewrite string_app_nil_r.
Qed.

(** What [handleError] does, in the order of its three statements. *)
Lemma handleError_spec (error : option JsError) (m : string) (w : World) :
  let failed := set_state FAILED (self (unload w)) in
  trace (handleError error m w)
  = trace w ++ release_of (self w) ++ [Promise_reject failed (getError error m)] /\
  cleaned (self (handleError error m w)) /\
  _state (self (handleError error m w)) = FAILED /\
  _promise (self (handleError error m w))
  = (if settled (_promise (self w)) then _promise (self w)
     else Rejected (getError error m)) /\
  tasks (handleError error m w) = tasks w.
Proof.
  unfold handleError, promise_reject, update, emit; cbn [self trace tasks].
  rewrite unload_trace, unload_tasks, unload_self, <- app_assoc.
  destruct w as [[? ? ? ? ? ? ? ? ? pr] ts tr n]; simpl.
  destruct pr; by repeat split.
Qed.

End Failure.

(** C3. On every failure path (the buffer view fails, the decoder fails,
    the bytes have no valid header, the fetch of the uri fails) the entry
    first gives back the buffer view it holds, then is in the state
    [FAILED] with the buffer view, the uri, the image and the glTF cleared
    when it rejects the deferred, and these stay so; the deferred is
    rejected if it was pending. On the uri path the message of the
    rejection contains the uri, on the buffer view path the words "Failed
    to load embedded image". *)
Theorem failure_cleanup (w : World) (ev : Event) (t : Task)
    (error : option JsError) :
  failure w ev = Some (t, error) ->
  exists snapshot reason,
    trace (step w ev)
    = trace w ++ release_of (self w) ++ [Promise_reject snapshot reason] /\
    cleaned snapshot /\ _state snapshot = FAILED /\
    _promise snapshot = _promise (self w) /\
    cleaned (self (step w ev)) /\ _state (self (step w ev)) = FAILED /\
    _promise (self (step w ev))
    = (if settled (_promise (self w)) then _promise (self w)
       else Rejected reason) /\
    match t with
    | AwaitUri uri =>
        reason = getError error ("Failed to load image:" ++ to_string uri)%string /\
        contains (message reason) (to_string uri)
    | _ =>
        reason = getError error "Failed to load embedded image" /\
        contains (message reason) "Failed to load embedded image"
    end.
Proof.
  intros Hf.
  assert (exists m, step w ev = handleError error m (with_tasks (delete
            match ev with
            | Fail k _ | Fulfil_bufferView k _ | Fulfil_image k _ => k
            | _ => 0
            end) w) /\
          match t with
          | AwaitUri uri => m = ("Failed to load image:" ++ to_string uri)%string
          | _ => m = "Failed to load embedded image"
          end) as (m & -> & Hm).
  { destruct ev as [| |k typedArray|k image|k err]; simpl in Hf |- *; try done.
    - destruct (tasks w !! k) as [[bv| |uri]|]; try done.
      unfold then_bufferView.
      destruct (CacheResourceState_eqb _ _); [done|].
      destruct (Sniff.loadImageFromBufferTypedArray typedArray); [done|].
      injection Hf as <- <-. by eexists.
    - destruct (tasks w !! k) as [t'|]; [|done]. simpl in Hf.
      injection Hf as -> ->.
      destruct t as [bv| |uri].
      + by exists "Failed to load embedded image".
      + by exists "Failed to load embedded image".
      + by exists ("Failed to load image:" ++ to_string uri)%string. }
  pose proof (handleError_spec error m (with_tasks (delete
            match ev with
            | Fail k _ | Fulfil_bufferView k _ | Fulfil_image k _ => k
            | _ => 0
            end) w)) as (Htr & Hcl & Hst & Hpr & _).
  eexists _, (getError error m).
  split; [exact Htr|].
  split; [apply unload_cleaned|].
  do 2 (split; [by rewrite ?unload_self|]).
  do 3 (split; [done|]).
  destruct t as [bv| |uri]; subst m; (split; [reflexivity|]).
  - apply (getError_contains error EmptyString).
  - apply (getError_contains error EmptyString).
  - apply getError_contains.
Qed.

Lemma failure_cleanup_witness :
  exists snapshot reason,
    trace (step (load (world_of Sample.external_entry))
             (Fail 0 (Some (ForeignError "404"))))
    = [Decoder_call (loadCRN_resource {| url := "https://example.com/model/wood.crn" |});
       Promise_reject snapshot reason] /\
    _state snapshot = FAILED /\
    contains (message reason) "wood.crn".
Proof.
  destruct (failure_cleanup (load (world_of Sample.external_entry))
              (Fail 0 (Some (ForeignError "404")))
              (AwaitUri (Some "wood.crn")) (Some (ForeignError "404")) eq_refl)
    as (snapshot & reason & Htr & _ & Hst & _ & _ & _ & _ & _ & Hm).
  exists snapshot, reason. by repeat split.
Defined.

(** The failure of the test of the specification, step by step. *)
Example failure_end_to_end :
  let w := run (world_of Sample.external_entry)
             [Call_load; Fail 0 (Some (ForeignError "404"))] in
  _state (self w) = FAILED /\
  _promise (self w)
  = Rejected (getError (Some (ForeignError "404"))
                "Failed to load image:wood.crn") /\
  contains (message (getError (Some (ForeignError "404"))
                       "Failed to load image:wood.crn")) "wood.crn".
Proof.
  repeat split.
  apply (getError_contains _ "Failed to load image:" "wood.crn").
Qed.

(** C10. When [unload] is called while the entry is loading and the
    awaited promise is rejected afterwards, the handler of [otherwise]
    runs all the same: [unload] leaves the state [UNLOADED] and the task
    awaited, the rejection sets the state to [FAILED] and calls [reject]
    on the deferred, which is rejected if it was pending. The test for
    [UNLOADED] is in the handlers of [then] only. *)
Theorem failure_after_unload (w : World) (k : nat) (t : Task)
    (error : option JsError) :
  _state (self w) = LOADING ->
  tasks w !! k = Some t ->
  let w1 := step w Call_unload in
  let w2 := step w1 (Fail k error) in
  _state (self w1) = UNLOADED /\
  tasks w1 !! k = Some t /\
  _state (self w2) = FAILED /\
  exists snapshot reason,
    trace w2 = trace w1 ++ [Promise_reject snapshot reason] /\
    _state snapshot = FAILED /\
    (_promise (self w) = Pending -> _promise (self w2) = Rejected reason).
Proof.
  intros Hst Ht w1 w2.
  assert (Ht1 : tasks w1 !! k = Some t).
  { subst w1. cbn [step]. by rewrite prototype_unload_tasks. }
  assert (Hself : self w1 = set_state UNLOADED (set_gltf None (set_image None
            (set_uri None (set_bufferViewCacheResource None (self w)))))).
  { subst w1. cbn [step]. apply prototype_unload_self. }
  assert (Hstep : w2 = otherwise t error (with_tasks (delete k) w1)).
  { subst w2. cbn [step]. by rewrite Ht1. }
  assert (exists m, w2 = handleError error m (with_tasks (delete k) w1))
    as [m Hm].
  { rewrite Hstep. destruct t as [bv| |uri]; by eexists. }
  destruct (handleError_spec error m (with_tasks (delete k) w1))
    as (Htr & _ & Hs2 & Hp & _).
  rewrite <- Hm in Htr, Hs2, Hp.
  rewrite self_with_tasks, trace_with_tasks in *.
  split; [by rewrite Hself|]. split; [done|]. split; [done|].
  eexists _, (getError error m). split; [|split].
  - rewrite Htr, Hself. reflexivity.
  - by rewrite unload_self.
  - intros Hpend. rewrite Hp, Hself. simpl. by rewrite Hpend.
Qed.

Lemma failure_after_unload_witness :
  _state (self (step (load (world_of Sample.plain_entry)) Call_unload)) = UNLOADED /\
  _state (self (step (step (load (world_of Sample.plain_entry)) Call_unload)
                  (Fail 0 (Some (ForeignError "timeout"))))) = FAILED.
Proof.
  destruct (failure_after_unload (load (world_of Sample.plain_entry)) 0
              (AwaitBufferView {| token := 0 |})
              (Some (ForeignError "timeout")) eq_refl eq_refl)
    as (H1 & _ & H2 & _).
  by split.
Defined.

(** ** The deferred *)

Section Deferred.

Lemma promise_resolve_settled (w : World) :
  settled (_promise (self w)) = true -> self (promise_resolve w) = self w.
Proof.
  destruct w as [[gr br g bid u ck bv img st pr] ts tr n]. handlers.
  by destruct pr.
Qed.

Lemma promise_reject_settled (reason : JsError) (w : World) :
  settled (_promise (self w)) = true ->
  self (promise_reject reason w) = self w.
Proof.
  destruct w as [[gr br g bid u ck bv img st pr] ts tr n]. handlers.
  by destruct pr.
Qed.

(** No step changes a settled deferred. *)
Lemma promise_stable (w : World) (ev : Event) :
  settled (_promise (self w)) = true ->
  _promise (self (step w ev)) = _promise (self w).
Proof.
  destruct w as [[gr br g bid u ck bv img st pr] ts tr n]; cbn [self _promise].
  intros Hpr.
  destruct ev as [| |k typedArray|k image|k error]; cbn [step tasks];
    try (destruct (ts !! k) as [[bv'| |uri]|]; try reflexivity);
    branches; done.
Qed.

Lemma promise_stable_run (evs : list Event) : forall w : World,
  settled (_promise (self w)) = true ->
  _promise (self (run w evs)) = _promise (self w).
Proof.
  induction evs as [|ev evs IH]; intros w H; [done|].
  cbn [run fold_left]. fold (run (step w ev) evs).
  rewrite IH; rewrite promise_stable; done.
Qed.

Lemma settlements_settled (evs : list Event) : forall w : World,
  settled (_promise (self w)) = true -> settlements w evs = 0.
Proof.
  induction evs as [|ev evs IH]; intros w H; [done|].
  cbn [settlements]. rewrite H, IH; [done|]. by rewrite promise_stable.
Qed.

Lemma settlements_le_1 (evs : list Event) : forall w : World,
  settlements w evs <= 1.
Proof.
  induction evs as [|ev evs IH]; intros w; cbn [settlements]; [lia|].
  destruct (settled (_promise (self w))) eqn:Hw.
  - rewrite settlements_settled; [lia|]. by rewrite promise_stable.
  - destruct (settled (_promise (self (step w ev)))) eqn:Hs.
    + rewrite settlements_settled; [lia|done].
    + apply IH.
Qed.

End Deferred.

(** C2. Along every run of calls of [load] and [unload] and of
    resumptions of handlers, the deferred changes at most once; once it is
    settled, no run changes it again, and a further call of [resolve] or
    [reject] leaves the entry as it is. *)
Theorem settles_once :
  (forall (w : World) (evs : list Event), settlements w evs <= 1) /\
  (forall (w : World) (evs : list Event),
     settled (_promise (self w)) = true ->
     _promise (self (run w evs)) = _promise (self w)) /\
  (forall (w : World) (reason : JsError),
     settled (_promise (self w)) = true ->
     self (promise_resolve w) = self w /\
     self (promise_reject reason w) = self w).
Proof.
  split; [|split].
  - intros w evs. apply settlements_le_1.
  - intros w evs. apply promise_stable_run.
  - intros w reason H. split.
    + by apply promise_resolve_settled.
    + by apply promise_reject_settled.
Qed.

(** A resolved entry that is loaded again, fails and is resolved again:
    the deferred stays as the first resolution left it. *)
Lemma settles_once_witness :
  _promise (self (run (run (world_of Sample.external_entry)
                         [Call_load; Fulfil_image 0 7])
                    [Call_load; Fail 0 None; Call_load; Fulfil_image 0 8]))
  = Resolved.
Proof.
  apply (proj1 (proj2 settles_once)
           (run (world_of Sample.external_entry) [Call_load; Fulfil_image 0 7])
           [Call_load; Fail 0 None; Call_load; Fulfil_image 0 8]).
  reflexivity.
Defined.

(** ** Unloading while the entry loads *)

Section Cancellation.

Ltac quiet_trace :=
  repeat (apply Forall_app; split); try assumption;
  repeat (apply Forall_cons; split; [reflexivity|]); try apply Forall_nil_2.

(** At most one task: it is the one at index 0. *)
Lemma one_task (ts : list Task) (k : nat) (t : Task) :
  length ts <= 1 -> ts !! k = Some t -> ts = [t] /\ k = 0.
Proof.
  destruct ts as [|t' [|t'' ts]]; simpl; intros Hlen Hk; try lia.
  - done.
  - destruct k; [by injection Hk as ->|done].
Qed.

Lemma untouched_step (w : World) (ev : Event) :
  is_load ev = false -> untouched w -> untouched (step w ev).
Proof.
  unfold untouched.
  destruct w as [[gr br g bid u ck bv img st pr] ts tr n].
  cbn [self tasks trace _state _promise _image _bufferViewCacheResource].
  intros Hev (-> & -> & -> & -> & -> & ->).
  destruct ev as [| |k typedArray|k image|k error]; try done; cbn [step tasks].
  all: branches; by rewrite ?app_nil_r.
Qed.

Lemma untouched_run (evs : list Event) : forall w : World,
  existsb is_load evs = false -> untouched w -> untouched (run w evs).
Proof.
  induction evs as [|ev evs IH]; intros w Hev H; [done|].
  cbn [existsb] in Hev. apply orb_false_iff in Hev as [Hev Hevs].
  cbn [run fold_left]. apply IH; [done|]. by apply untouched_step.
Qed.

Lemma untouched_new (options : Options) (e : GltfImageCacheResource) :
  new_GltfImageCacheResource options = Normal e -> untouched (world_of e).
Proof.
  intros Hnew. unfold new_GltfImageCacheResource in Hnew.
  destruct (_ !! _); [|done]. destruct (select_source _ _).
  injection Hnew as <-. unfold untouched; cbn. by repeat split.
Qed.

Lemma loading_once_load (w : World) :
  untouched w -> loading_once (load w).
Proof.
  unfold untouched, loading_once.
  destruct w as [[gr br g bid u ck bv img st pr] ts tr n].
  cbn [self tasks trace _state _promise _image _bufferViewCacheResource].
  intros (-> & -> & -> & -> & -> & ->). branches;
    (split; [simpl; lia|]); intros _; repeat split; quiet_trace.
Qed.

Lemma loading_once_step (w : World) (ev : Event) :
  is_load ev = false -> loading_once w -> loading_once (step w ev).
Proof.
  destruct w as [[gr br g bid u ck bv img st pr] ts tr n].
  unfold loading_once; cbn [self tasks trace _state _promise _image].
  intros Hev [Hlen Hst].
  destruct ev as [| |k typedArray|k image|k error]; try done; cbn [step tasks];
    try (destruct (ts !! k) as [t|] eqn:Hk; [|done];
         destruct (one_task ts k t Hlen Hk) as [-> ->];
         destruct t as [bv'| |uri]; try done);
    branches; (split; [simpl; lia|]); intros Hl; try done;
    destruct (Hst Hl) as (? & ? & ?); repeat split; try done; quiet_trace.
Qed.

Lemma loading_once_run (evs : list Event) : forall w : World,
  existsb is_load evs = false -> loading_once w -> loading_once (run w evs).
Proof.
  induction evs as [|ev evs IH]; intros w Hev H; [done|].
  cbn [existsb] in Hev. apply orb_false_iff in Hev as [Hev Hevs].
  cbn [run fold_left]. apply IH; [done|]. by apply loading_once_step.
Qed.

Lemma cancelled_unload (w : World) :
  loading_once w -> _state (self w) = LOADING ->
  cancelled (prototype_unload w).
Proof.
  intros [Hlen Hst] Hl. destruct (Hst Hl) as (Hp & Hi & Htr).
  unfold cancelled.
  rewrite prototype_unload_self, prototype_unload_trace, prototype_unload_tasks.
  cbn [_state _promise _image _bufferViewCacheResource set_state set_gltf
       set_image set_uri set_bufferViewCacheResource].
  rewrite Hp. repeat split; try done.
  apply Forall_app; split; [done|]. unfold release_of.
  destruct (_bufferViewCacheResource (self w)); quiet_trace.
Qed.

Lemma cancelled_step (w : World) (ev : Event) :
  is_load ev = false -> cancelled w -> cancelled (step w ev).
Proof.
  destruct w as [[gr br g bid u ck bv img st pr] ts tr n].
  unfold cancelled;
    cbn [self tasks trace _state _promise _image _bufferViewCacheResource].
  intros Hev (Hlen & Hst & Hpr & -> & -> & Htr).
  destruct ev as [| |k typedArray|k image|k error]; try done; cbn [step tasks];
    try (destruct (ts !! k) as [t|] eqn:Hk; [|done];
         destruct (one_task ts k t Hlen Hk) as [-> ->];
         try (rewrite Hst in * by done);
         destruct t as [bv'| |uri]; try done);
    branches; cbn [delete list_delete length];
    repeat split; try done; try lia; quiet_trace.
Qed.

Lemma cancelled_run (evs : list Event) : forall w : World,
  existsb is_load evs = false -> cancelled w -> cancelled (run w evs).
Proof.
  induction evs as [|ev evs IH]; intros w Hev H; [done|].
  cbn [existsb] in Hev. apply orb_false_iff in Hev as [Hev Hevs].
  cbn [run fold_left]. apply IH; [done|]. by apply cancelled_step.
Qed.

(** A handler of [then] that is resumed in a cancelled world finds the
    state [UNLOADED] and returns at once: the task is gone; the entry
    is as [unload] leaves it, nothing is decoded, published or given
    back. *)
Lemma cancelled_resume (w : World) (ev : Event) :
  cancelled w -> resumes_success w ev = true ->
  _state (self w) = UNLOADED /\
  step w ev = with_tasks (fun _ => []) (unload w) /\
  trace (step w ev) = trace w.
Proof.
  destruct w as [[gr br g bid u ck bv img st pr] ts tr n].
  unfold cancelled;
    cbn [self tasks trace _state _promise _image _bufferViewCacheResource].
  intros (Hlen & Hst & Hpr & -> & -> & Htr) Hev.
  destruct ev as [| |k typedArray|k image|k error]; try done;
    cbn [resumes_success step tasks] in *;
    (destruct (ts !! k) as [t|] eqn:Hk; [|done]);
    destruct (one_task ts k t Hlen Hk) as [-> ->];
    rewrite Hst in * by done;
    destruct t as [bv'| |uri]; try done;
    (split; [done|]); split; try reflexivity;
    branches; by rewrite app_nil_r.
Qed.

End Cancellation.

(** C1, as the claim states it, fails: [unload] is called while the entry
    is loading, and [load] is called again before the decoder of the first
    call returns. The handler of the first call then finds the state
    [LOADING], not [UNLOADED]: it stores the image and resolves the
    deferred. *)
Lemma unload_while_loading_counterexample :
  new_GltfImageCacheResource (Sample.options 0) = Normal Sample.external_entry /\
  _state (self (run (world_of Sample.external_entry) [Call_load])) = LOADING /\
  tasks (run (world_of Sample.external_entry) [Call_load; Call_unload])
  = [AwaitUri (Some "wood.crn")] /\
  _state (self (run (world_of Sample.external_entry) [Call_load; Call_unload]))
  = UNLOADED /\
  resumes_success
    (run (world_of Sample.external_entry) [Call_load; Call_unload; Call_load])
    (Fulfil_image 0 7) = true /\
  _state (self (run (world_of Sample.external_entry)
                  [Call_load; Call_unload; Call_load])) = LOADING /\
  _state (self (run (world_of Sample.external_entry)
                  [Call_load; Call_unload; Call_load; Fulfil_image 0 7])) = READY /\
  _image (self (run (world_of Sample.external_entry)
                  [Call_load; Call_unload; Call_load; Fulfil_image 0 7])) = Some 7 /\
  _promise (self (run (world_of Sample.external_entry)
                    [Call_load; Call_unload; Call_load; Fulfil_image 0 7]))
  = Resolved.
Proof. by repeat split. Qed.

(** C1, amended. On an entry on which [load] is called once: when
    [unload] is called while the entry is loading, then from there on,
    as long as [load] is not called again, the deferred is not resolved,
    no image is stored and [resolve] is never called; and a handler of
    [then] that is resumed (for the buffer view, the decoder or the
    fetch) finds the state [UNLOADED] and returns: it stores no image,
    starts no decoder, leaves the deferred alone and awaits nothing. *)
Theorem unload_while_loading (options : Options) (e : GltfImageCacheResource)
    (evs0 evs1 evs2 : list Event) (ev : Event) :
  new_GltfImageCacheResource options = Normal e ->
  existsb is_load evs0 = false ->
  existsb is_load evs1 = false ->
  existsb is_load evs2 = false ->
  _state (self (run (world_of e) (evs0 ++ Call_load :: evs1))) = LOADING ->
  let w := run (world_of e)
             (evs0 ++ Call_load :: evs1 ++ Call_unload :: evs2) in
  _promise (self w) <> Resolved /\
  _image (self w) = None /\
  Forall (fun f => is_resolve f = false) (trace w) /\
  (resumes_success w ev = true ->
     _state (self w) = UNLOADED /\
     _state (self (step w ev)) = UNLOADED /\
     _image (self (step w ev)) = None /\
     _promise (self (step w ev)) = _promise (self w) /\
     trace (step w ev) = trace w /\
     tasks (step w ev) = []).
Proof.
  intros Hnew Hevs0 Hevs1 Hevs2 Hloading w.
  unfold run in Hloading. rewrite fold_left_app in Hloading.
  cbn [fold_left] in Hloading.
  assert (Hc : cancelled w).
  { subst w. unfold run. rewrite fold_left_app. cbn [fold_left].
    rewrite fold_left_app. cbn [fold_left].
    apply cancelled_run; [done|]. cbn [step].
    apply cancelled_unload; [|exact Hloading].
    apply loading_once_run; [done|]. cbn [step].
    apply loading_once_load, untouched_run; [done|].
    by apply (untouched_new options). }
  pose proof Hc as (Hlen & Hst & Hpr & Himg & Hbv & Htr).
  split; [done|]. split; [done|]. split; [done|].
  intros Hev.
  destruct (cancelled_resume w ev Hc Hev) as (Hu & Hstep & Htrace).
  split; [done|]. rewrite Htrace, Hstep.
  autorewrite with world. cbn [_state _image _promise set_gltf set_image
    set_uri set_bufferViewCacheResource].
  done.
Qed.

Lemma unload_while_loading_witness :
  _promise (self (run (world_of Sample.plain_entry)
                    [Call_unload; Call_load; Call_unload; Call_unload;
                     Fulfil_bufferView 0 Sniff.png_header])) = Pending /\
  trace (run (world_of Sample.plain_entry)
           [Call_unload; Call_load; Call_unload; Call_unload;
            Fulfil_bufferView 0 Sniff.png_header])
  = trace (run (world_of Sample.plain_entry)
             [Call_unload; Call_load; Call_unload; Call_unload]).
Proof.
  destruct (unload_while_loading (Sample.options 2) Sample.plain_entry
              [Call_unload] [] [Call_unload]
              (Fulfil_bufferView 0 Sniff.png_header)
              eq_refl eq_refl eq_refl eq_refl eq_refl)
    as (_ & _ & _ & H).
  destruct (H eq_refl) as (_ & _ & _ & Hp & Ht & _).
  split; [exact Hp|exact Ht].
Defined.

(** The same between the arrival of the bytes and the end of the decoder,
    and on the uri path. *)
Example unload_while_decoding :
  let w := run (world_of Sample.plain_entry)
             [Call_load; Fulfil_bufferView 0 Sniff.png_header; Call_unload;
              Fulfil_image 0 7] in
  _state (self w) = UNLOADED /\ _image (self w) = None /\
  _promise (self w) = Pending /\ tasks w = [].
Proof. by repeat split. Qed.

Example unload_while_fetching :
  let w := run (world_of Sample.external_entry)
             [Call_load; Call_unload; Fulfil_image 0 7] in
  _state (self w) = UNLOADED /\ _image (self w) = None /\
  _promise (self w) = Pending /\ tasks w = [].
Proof. by repeat split. Qed.

(** The end-to-end test of the specification: valid PNG bytes arrive, the
    decoder returns, the entry is ready and the buffer view is given
    back. *)
Example load_end_to_end :
  let w := run (world_of Sample.plain_entry)
             [Call_load; Fulfil_bufferView 0 Sniff.png_header; Fulfil_image 0 7] in
  _state (self w) = READY /\ _image (self w) = Some 7 /\
  _promise (self w) = Resolved /\
  released (trace w) = [0] /\
  In (Decoder_call (loadImageFromTypedArray Sniff.png_header "image/png" false))
     (trace w).
Proof. repeat split; simpl; auto. Qed.

(** * Further properties *)

(** ** The sniffer on every input *)

Section SniffBounds.
Import TypedArray Sniff.
Local Open Scope Z_scope.

(** The test of a two-byte signature. *)
Lemma header2 (a : list Z) (x y : Z) :
  at_eq (subarray a 0 2) 0 x && at_eq (subarray a 0 2) 1 y = true
  <-> exists rest, a = x :: y :: rest.
Proof.
  destruct a as [|a0 [|a1 rest]]; cbn.
  - split; [discriminate|]. by intros [? ?].
  - rewrite andb_false_r. split; [discriminate|]. by intros [? ?].
  - rewrite andb_true_iff, !Z.eqb_eq. split.
    + intros [-> ->]. by eexists.
    + by intros [? [= -> -> _]].
Qed.

(** The test of the WebP signature. *)
Lemma header_webp (a : list Z) :
  at_eq (subarray a 0 4) 0 0x52 && at_eq (subarray a 0 4) 1 0x49 &&
  at_eq (subarray a 0 4) 2 0x46 && at_eq (subarray a 0 4) 3 0x46 &&
  at_eq (subarray a 8 12) 0 0x57 && at_eq (subarray a 8 12) 1 0x45 &&
  at_eq (subarray a 8 12) 2 0x42 && at_eq (subarray a 8 12) 3 0x50 = true
  <-> has_header WebP a.
Proof.
  cbn [has_header].
  do 12 (destruct a as [|? a];
         [split; [cbn; rewrite ?andb_false_r; discriminate
                 |by intros (? & ? & ? & ? & ? & ?)]|]).
  cbn. rewrite !andb_true_iff, !Z.eqb_eq. split.
  - intros [[[[[[[-> ->] ->] ->] ->] ->] ->] ->]. by repeat eexists.
  - intros (? & ? & ? & ? & ? & [= -> -> -> -> _ _ _ _ -> -> -> -> _]).
    by repeat split.
Qed.

Lemma mime_inj (f g : ImageFormat) : mime f = mime g -> f = g.
Proof. by destruct f, g. Qed.

(** The sniffer returns a tag only for bytes with the signature of its
    format, and throws only the error of the missing header. *)
Lemma sniff_cases (bytes : list Z) :
  (exists f, getMimeTypeFromTypedArray bytes = Normal (mime f)
             /\ has_header f bytes) \/
  (getMimeTypeFromTypedArray bytes
   = Throw (RuntimeError "Image data does not have valid header")
   /\ forall f, ~ has_header f bytes).
Proof.
  destruct (getMimeTypeFromTypedArray bytes) as [m|e] eqn:Hm.
  - left. revert Hm. unfold getMimeTypeFromTypedArray. cbv zeta.
    repeat match goal with
    | |- context [if ?c then _ else _] =>
        let H := fresh "H" in
        destruct c eqn:H;
        [first [apply header2 in H | apply header_webp in H];
         intros [= <-];
         first [ by exists BMP | by exists GIF | by exists JPEG | by exists PNG
               | by exists KTX | by exists CRN | by exists Basis | by exists WebP ]
        |]
    end.
    discriminate.
  - right. split.
    + revert Hm. unfold getMimeTypeFromTypedArray. cbv zeta.
      repeat match goal with
      | |- context [if ?c then _ else _] => destruct c; [discriminate|]
      end.
      by intros [= <-].
    + intros f Hf. apply sniff_has_header in Hf. congruence.
Qed.

End SniffBounds.

(** X1. Whatever the length of the input, a tag that the sniffer returns
    is the tag of a format whose signature the bytes start with: no tag is
    returned for bytes that lack the signature. *)
Theorem sniff_sound (bytes : list Z) (mimeType : string) :
  Sniff.getMimeTypeFromTypedArray bytes = Normal mimeType ->
  exists f, mimeType = Sniff.mime f /\ Sniff.has_header f bytes.
Proof.
  intros H. destruct (sniff_cases bytes) as [(f & Hf & Hh)|[Ht _]].
  - exists f. split; [congruence|done].
  - congruence.
Qed.

Lemma sniff_sound_witness :
  exists f, "image/png" = Sniff.mime f /\ Sniff.has_header f Sniff.png_header.
Proof. apply (sniff_sound Sniff.png_header "image/png"). reflexivity. Defined.

(** X2. Short input: fewer than two bytes (the empty array too) make the
    sniffer throw the error of the missing header, and fewer than twelve
    bytes are never WebP, since the bytes 8 to 11 are read past the end. *)
Theorem sniff_short (bytes : list Z) :
  (length bytes < 2 ->
   Sniff.getMimeTypeFromTypedArray bytes
   = Throw (RuntimeError "Image data does not have valid header")) /\
  (length bytes < 12 ->
   Sniff.getMimeTypeFromTypedArray bytes <> Normal "image/webp").
Proof.
  split; intros Hlen.
  - destruct (sniff_cases bytes) as [(f & _ & Hh)|[Ht _]]; [|done].
    exfalso. destruct f; cbn in Hh;
      repeat match type of Hh with
             | exists _, _ => destruct Hh as [? Hh]
             end; subst bytes; simpl in Hlen; lia.
  - intros H. destruct (sniff_cases bytes) as [(f & Hf & Hh)|[Ht _]];
      [|congruence].
    rewrite H in Hf. injection Hf as Hf.
    apply (mime_inj Sniff.WebP) in Hf as <-.
    destruct Hh as (? & ? & ? & ? & ? & ->). simpl in Hlen. lia.
Qed.

Lemma sniff_short_witness :
  Sniff.getMimeTypeFromTypedArray [0x89%Z]
  = Throw (RuntimeError "Image data does not have valid header") /\
  Sniff.getMimeTypeFromTypedArray
    [0x52; 0x49; 0x46; 0x46; 0; 0; 0; 0; 0x57; 0x45; 0x42]%Z
  <> Normal "image/webp".
Proof.
  split.
  - apply (proj1 (sniff_short [0x89%Z])). simpl. lia.
  - apply (proj2 (sniff_short
                    [0x52; 0x49; 0x46; 0x46; 0; 0; 0; 0; 0x57; 0x45; 0x42]%Z)).
    simpl. lia.
Defined.

(** X3. The sniffer reads the first twelve bytes only: what follows them
    never changes the tag or the error. *)
Theorem sniff_first_twelve (bytes : list Z) :
  Sniff.getMimeTypeFromTypedArray (take 12 bytes)
  = Sniff.getMimeTypeFromTypedArray bytes.
Proof.
  do 12 (destruct bytes as [|? bytes]; [reflexivity|]). reflexivity.
Qed.

(** X4. The inline path decides by the signature: it returns a call
    exactly for bytes that start with the signature of a format, and the
    call is the one of that format on the bytes as given; it throws
    exactly for bytes without a signature, with the error of the
    sniffer, and then calls no decoder. *)
Theorem inline_by_signature (typedArray : list Z) :
  (forall call,
     Sniff.loadImageFromBufferTypedArray (R := Resource) typedArray = Normal call
     <-> exists f, Sniff.has_header f typedArray /\
                   call = inline_call f typedArray) /\
  (forall e,
     Sniff.loadImageFromBufferTypedArray (R := Resource) typedArray = Throw e
     <-> e = RuntimeError "Image data does not have valid header" /\
         forall f, ~ Sniff.has_header f typedArray).
Proof.
  unfold Sniff.loadImageFromBufferTypedArray.
  destruct (sniff_cases typedArray) as [(f & Hf & Hh)|[Ht Hno]].
  - rewrite Hf.
    split.
    + intros call. cbn [mbind completion_bind]. split.
      * intros Hc. exists f. split; [done|].
        destruct f; cbn in Hc |- *; congruence.
      * intros (g & Hg & ->).
        apply sniff_has_header in Hg. rewrite Hf in Hg.
        injection Hg as Hg. apply mime_inj in Hg as ->.
        by destruct g.
    + intros e. cbn [mbind completion_bind]. split.
      * by destruct f.
      * intros [_ Hno]. by destruct (Hno f).
  - rewrite Ht. cbn [mbind completion_bind]. split.
    + intros call. split; [discriminate|].
      intros (f & Hh & _). by destruct (Hno f).
    + intros e. split; [by intros [= <-]|by intros [-> _]].
Qed.

Lemma inline_by_signature_witness :
  Sniff.loadImageFromBufferTypedArray (R := Resource) Sniff.ktx_header
  = Normal (loadKTX_typedArray Sniff.ktx_header).
Proof.
  apply (proj1 (inline_by_signature Sniff.ktx_header)).
  exists Sniff.KTX. split; [|reflexivity]. simpl. by eexists.
Defined.

(** ** The regular expressions on every locator *)

Section RegExpCase.
Import RegExp.

Lemma string_length_app (a b : string) :
  String.length (a ++ b)%string = String.length a + String.length b.
Proof. induction a as [|c a IH]; simpl; [done|by rewrite IH]. Qed.

Lemma same_text_length (s : string) : forall t : string,
  same_text s t -> String.length s = String.length t.
Proof.
  induction s as [|a s IH]; intros [|b t]; cbn; try done.
  intros [_ H]. by rewrite (IH t H).
Qed.

(** With the flag [i] an alternative cannot tell two inputs that are the
    same up to case. *)
Lemma match_alternative_same_text (ts : Alternative) :
  forall (start : bool) (s t : string),
    same_text s t ->
    match_alternative true ts start s = match_alternative true ts start t.
Proof.
  induction ts as [|[| |c] ts IH]; intros start s t Hst; cbn [match_alternative].
  - done.
  - by rewrite (IH start s t Hst).
  - destruct s, t; cbn in Hst; done.
  - destruct s as [|a s], t as [|b t]; cbn in Hst; try done.
    destruct Hst as [Hab Hst].
    rewrite (IH false s t Hst). f_equal.
    apply canonicalize_same_letter in Hab. apply Ascii.eqb_eq in Hab.
    by rewrite Hab.
Qed.

Lemma exec_from_same_text (r : RegExp.t) :
  ignoreCase r = true ->
  forall (s t : string) (start : bool),
    same_text s t -> exec_from r start s = exec_from r start t.
Proof.
  intros Hi. induction s as [|a s IH]; intros [|b t] start Hst;
    cbn in Hst; try done; cbn [exec_from]; rewrite Hi.
  destruct Hst as [Hab Hst]. rewrite (IH t false Hst). f_equal.
  induction (disjunction r) as [|alt alts IHa]; [done|].
  cbn [existsb]. rewrite IHa. f_equal.
  apply match_alternative_same_text. by split.
Qed.

Lemma prefix_ci_length (p s : string) :
  prefix_ci p s -> String.length p <= String.length s.
Proof.
  intros (pre & rest & -> & Hup). rewrite string_length_app.
  rewrite (same_text_length _ _ Hup). lia.
Qed.

Lemma suffix_ci_length (x s : string) :
  suffix_ci x s -> String.length x <= String.length s.
Proof.
  intros (pre & suf & -> & Hup). rewrite string_length_app.
  rewrite (same_text_length _ _ Hup). lia.
Qed.

End RegExpCase.

(** X5. Two locators that differ only in the case of letters a to z (the
    same length, and character by character equal or the two cases of one
    letter of the table) go to the same decoder. *)
Theorem uri_case_insensitive (u u' : string) :
  RegExp.same_text u u' ->
  decoder_of (UriDispatch.loadImageFromUri {| url := u |})
  = decoder_of (UriDispatch.loadImageFromUri {| url := u' |}).
Proof.
  intros H. unfold UriDispatch.loadImageFromUri, RegExp.test. cbn [url].
  rewrite (exec_from_same_text UriDispatch.ktxRegex eq_refl u u' true H).
  rewrite (exec_from_same_text UriDispatch.crnRegex eq_refl u u' true H).
  by repeat case_match.
Qed.

Lemma uri_case_insensitive_witness :
  decoder_of (UriDispatch.loadImageFromUri {| url := "Data:Image/CRN;base64,SHg=" |})
  = decoder_of (UriDispatch.loadImageFromUri {| url := "data:image/crn;base64,shG=" |}).
Proof.
  apply (uri_case_insensitive "Data:Image/CRN;base64,SHg="
           "data:image/crn;base64,shG=").
  cbn [RegExp.same_text]. repeat split; apply same_letter_b_spec; reflexivity.
Defined.

(** X6. A locator of fewer than four characters, the empty one too,
    matches neither pattern and is fetched as a generic image. *)
Theorem uri_short (resource : Resource) :
  String.length (url resource) < 4 ->
  UriDispatch.loadImageFromUri resource = fetchImage resource.
Proof.
  intros Hlen. unfold UriDispatch.loadImageFromUri.
  destruct (RegExp.test UriDispatch.ktxRegex (url resource)) eqn:Hk.
  - apply test_ktxRegex in Hk as [H|H];
      [apply prefix_ci_length in H|apply suffix_ci_length in H];
      simpl in H; lia.
  - destruct (RegExp.test UriDispatch.crnRegex (url resource)) eqn:Hc; [|done].
    apply test_crnRegex in Hc as [H|H];
      [apply prefix_ci_length in H|apply suffix_ci_length in H];
      simpl in H; lia.
Qed.

Lemma uri_short_witness :
  UriDispatch.loadImageFromUri {| url := "ktx" |} = fetchImage {| url := "ktx" |}.
Proof. apply (uri_short {| url := "ktx" |}). simpl. lia. Defined.

(** ** The constructor on every image id *)

(** The entries of a debug build are the entries of the release build,
    and its checks come first. *)
Lemma debug_constructor (check : Options -> completion unit)
    (options : Options) :
  (forall e, new_GltfImageCacheResource_debug check options = Normal e ->
             new_GltfImageCacheResource options = Normal e) /\
  (forall err, check options = Throw err ->
               new_GltfImageCacheResource_debug check options = Throw err).
Proof.
  unfold new_GltfImageCacheResource_debug. split.
  - intros e. by destruct (check options) as [[]|].
  - by intros err ->.
Qed.

(** X8. The two fields [_bufferViewId] and [_uri] of a constructed entry,
    by the priority of the variants: the first variant, in the order
    crunch, s3tc, pvrtc1, etc1, that is present and whose flag (s3tc,
    s3tc, pvrtc, etc1) is set, gives its buffer view if it has one, the
    uri of the image staying, and else its uri, the buffer view of the
    image staying; without such a variant both fields are those of the
    image. *)
Theorem source_by_priority (options : Options) (image : Image.t)
    (e : GltfImageCacheResource) :
  Gltf.images (gltf options) !! imageId options = Some image ->
  new_GltfImageCacheResource options = Normal e ->
  match first_supported_variant image (supportedImageFormats options) with
  | Some v => takes_source e image v
  | None =>
      _bufferViewId e = Image.bufferView image /\ _uri e = Image.uri image
  end.
Proof.
  intros Himg Hnew.
  destruct (new_source options image Himg) as (e' & He & Hsrc & _).
  rewrite Hnew in He. injection He as <-.
  rewrite select_source_first_supported in Hsrc. unfold takes_source.
  destruct (first_supported_variant _ _) as [v|].
  - unfold use_variant in Hsrc. destruct (Variant.bufferView v) as [id|];
      cbn [defined fst snd] in Hsrc; by injection Hsrc as -> ->.
  - by injection Hsrc as -> ->.
Qed.

(** With pvrtc and etc1 reported, the crunch and s3tc variants of the
    sample are passed over and the buffer view of its pvrtc variant is
    taken. *)
Lemma source_by_priority_witness :
  _bufferViewId Sample.packed_pvrtc_entry = Some 9 /\
  _uri Sample.packed_pvrtc_entry = Some "wood.png".
Proof.
  apply (source_by_priority (Sample.options_pvrtc 3) Sample.packed_image
           Sample.packed_pvrtc_entry eq_refl eq_refl).
Defined.

(** ** The entry along every run *)

Section Runs.

(** Cases of an event: the task it settles, if any. *)
Ltac event_cases w ev :=
  destruct w as [[gr br g bid u ck bv img st pr] ts tr n];
  destruct ev as [| |k typedArray|k image|k error]; cbn [step tasks];
  try (destruct (ts !! k) as [[bv'| |uri]|] eqn:Hk).

Lemma run_app (w : World) (evs1 evs2 : list Event) :
  run w (evs1 ++ evs2) = run (run w evs1) evs2.
Proof. apply fold_left_app. Qed.

Lemma step_immutable (w : World) (ev : Event) :
  _cacheKey (self (step w ev)) = _cacheKey (self w) /\
  _bufferViewId (self (step w ev)) = _bufferViewId (self w) /\
  _baseResource (self (step w ev)) = _baseResource (self w) /\
  _gltfResource (self (step w ev)) = _gltfResource (self w).
Proof. event_cases w ev; branches; done. Qed.

Lemma run_immutable (evs : list Event) : forall w : World,
  _cacheKey (self (run w evs)) = _cacheKey (self w) /\
  _bufferViewId (self (run w evs)) = _bufferViewId (self w) /\
  _baseResource (self (run w evs)) = _baseResource (self w) /\
  _gltfResource (self (run w evs)) = _gltfResource (self w).
Proof.
  induction evs as [|ev evs IH]; intros w; [done|].
  cbn [run fold_left]. fold (run (step w ev) evs).
  destruct (IH (step w ev)) as (-> & -> & -> & ->). apply step_immutable.
Qed.

Lemma coherent_step (w : World) (ev : Event) :
  coherent (self w) -> coherent (self (step w ev)).
Proof.
  unfold coherent, freed. event_cases w ev; cbn [self _state _image
    _bufferViewCacheResource _uri _gltf]; intros (H1 & H2 & H3);
    branches; repeat split; intros; try done;
    try (destruct_or?; done); intuition (try done).
Qed.

Lemma published_step (w : World) (ev : Event) :
  Forall published (trace w) -> Forall published (trace (step w ev)).
Proof.
  event_cases w ev; cbn [trace]; intros H; branches; try done;
    repeat (apply Forall_app; split); try done;
    repeat (apply Forall_cons; split); try apply Forall_nil_2; try done;
    cbn; unfold freed, cleaned; cbn; by repeat split.
Qed.

Lemma cache_free_step (w : World) (ev : Event) :
  cache_free w -> cache_free (step w ev).
Proof.
  unfold cache_free. event_cases w ev;
    cbn [self trace _bufferViewId _bufferViewCacheResource];
    intros (-> & -> & H); branches; repeat split; try done;
    repeat (apply Forall_app; split); try done;
    repeat (apply Forall_cons; split); try apply Forall_nil_2; done.
Qed.

End Runs.

(** X9. No run changes the cache key that the accessor [cacheKey]
    returns, nor the buffer view id or the two resources of the entry:
    they are what the constructor stored. *)
Theorem immutable_fields (w : World) (evs : list Event) :
  Getter.cacheKey (self (run w evs)) = Getter.cacheKey (self w) /\
  _bufferViewId (self (run w evs)) = _bufferViewId (self w) /\
  _baseResource (self (run w evs)) = _baseResource (self w) /\
  _gltfResource (self (run w evs)) = _gltfResource (self w).
Proof.
  unfold Getter.cacheKey. revert w.
  induction evs as [|ev evs IH]; intros w; [done|].
  cbn [run fold_left]. fold (run (step w ev) evs).
  destruct (IH (step w ev)) as (-> & -> & -> & ->). apply step_immutable.
Qed.

(** X10. Along every run of a constructed entry: a ready entry has an
    image; an entry with an image is ready, or loading again after it was
    ready; and a ready or failed entry holds no buffer view, no uri and
    no glTF. In particular the accessor [image] returns nothing for an
    unloaded or failed entry. *)
Theorem image_iff_ready (options : Options) (evs : list Event) :
  match new_GltfImageCacheResource options with
  | Normal e =>
      coherent (self (run (world_of e) evs)) /\
      (_state (self (run (world_of e) evs)) = UNLOADED \/
       _state (self (run (world_of e) evs)) = FAILED ->
       Getter.image (self (run (world_of e) evs)) = None)
  | Throw _ => True
  end.
Proof.
  destruct (new_GltfImageCacheResource options) as [e|] eqn:Hnew; [|done].
  assert (Hc : coherent (self (run (world_of e) evs))).
  { assert (H0 : coherent (self (world_of e))).
    { unfold new_GltfImageCacheResource in Hnew.
      destruct (_ !! _); [|done]. destruct (select_source _ _).
      injection Hnew as <-. unfold coherent; cbn.
      split; [done|]. split; [done|]. by intros [?|?]. }
    revert H0. generalize (world_of e).
    induction evs as [|ev evs IH]; intros w Hw; [done|].
    cbn [run fold_left]. by apply IH, coherent_step. }
  split; [done|]. intros Hst. destruct Hc as (_ & H2 & _).
  unfold Getter.image.
  destruct (_image (self (run (world_of e) evs))) as [img|]; [|done].
  destruct (H2 ltac:(done)) as [H|H]; destruct Hst as [Hs|Hs]; congruence.
Qed.

Lemma image_iff_ready_witness :
  Getter.image (self (run (world_of Sample.plain_entry)
                        [Call_load; Fulfil_bufferView 0 Sniff.png_header;
                         Fulfil_image 0 7; Call_load; Fail 0 None])) = None.
Proof.
  apply (proj2 (image_iff_ready (Sample.options 2)
                  [Call_load; Fulfil_bufferView 0 Sniff.png_header;
                   Fulfil_image 0 7; Call_load; Fail 0 None])).
  by right.
Defined.

(** X11. Whenever [resolve] is called the entry is ready, has its image
    and holds no buffer view, uri or glTF; whenever [reject] is called it
    is failed and cleaned: the observers of the deferred never find the
    entry in between. *)
Theorem settled_in_final_state (e : GltfImageCacheResource)
    (evs : list Event) :
  Forall published (trace (run (world_of e) evs)).
Proof.
  assert (H0 : Forall published (trace (world_of e))) by apply Forall_nil_2.
  revert H0. generalize (world_of e).
  induction evs as [|ev evs IH]; intros w Hw; [done|].
  cbn [run fold_left]. by apply IH, published_step.
Qed.

(** X12. An entry without a buffer view id never calls the resource
    cache: every call of [load] takes the uri path, and no handler
    acquires or gives back a buffer view. *)
Theorem uri_path_cache_free (e : GltfImageCacheResource) (evs : list Event) :
  _bufferViewId e = None ->
  _bufferViewCacheResource e = None ->
  Forall quiet (trace (run (world_of e) evs)).
Proof.
  intros Hid Hbv.
  assert (H0 : cache_free (world_of e)).
  { unfold cache_free; cbn. by repeat split. }
  cut (cache_free (run (world_of e) evs)); [by intros (_ & _ & H)|].
  revert H0. generalize (world_of e).
  induction evs as [|ev evs IH]; intros w Hw; [done|].
  cbn [run fold_left]. by apply IH, cache_free_step.
Qed.

Lemma uri_path_cache_free_witness :
  Forall quiet
    (trace (run (world_of Sample.external_entry)
              [Call_load; Call_unload; Call_load; Fulfil_image 0 7;
               Fail 0 None])).
Proof.
  apply (uri_path_cache_free Sample.external_entry
           [Call_load; Call_unload; Call_load; Fulfil_image 0 7; Fail 0 None]);
    reflexivity.
Defined.

(** X13. Before the first call of [load] nothing happens: [unload] and
    the settling of promises that the entry does not await leave it
    unloaded, with a pending deferred, and no collaborator is called;
    [unload] before [load] rejects nothing. *)
Theorem before_load (options : Options) (evs : list Event) :
  existsb is_load evs = false ->
  match new_GltfImageCacheResource options with
  | Normal e => untouched (run (world_of e) evs)
  | Throw _ => True
  end.
Proof.
  intros Hevs.
  destruct (new_GltfImageCacheResource options) as [e|] eqn:Hnew; [|done].
  assert (H0 : untouched (world_of e)).
  { unfold new_GltfImageCacheResource in Hnew.
    destruct (_ !! _); [|done]. destruct (select_source _ _).
    injection Hnew as <-. unfold untouched; cbn. by repeat split. }
  revert H0 Hevs. generalize (world_of e).
  induction evs as [|ev evs IH]; intros w Hw Hevs; [done|].
  cbn [existsb] in Hevs. apply orb_false_iff in Hevs as [Hev Hevs].
  cbn [run fold_left]. apply IH; [|done]. by apply untouched_step.
Qed.

Lemma before_load_witness :
  untouched (run (world_of Sample.plain_entry)
               [Call_unload; Fail 0 None; Fulfil_image 0 7; Call_unload]).
Proof.
  apply (before_load (Sample.options 2)
           [Call_unload; Fail 0 None; Fulfil_image 0 7; Call_unload]).
  reflexivity.
Defined.

Section Handlers.

Lemma inline_call_of_header (f : Sniff.ImageFormat) (bytes : list Z) :
  Sniff.has_header f bytes ->
  Sniff.loadImageFromBufferTypedArray (R := Resource) bytes
  = Normal (inline_call f bytes).
Proof.
  intros H. unfold Sniff.loadImageFromBufferTypedArray.
  rewrite (sniff_has_header f bytes H). by destruct f.
Qed.

Lemma attempts_app (a b : list Effect) :
  attempts (a ++ b) = attempts a + attempts b.
Proof. unfold attempts. by rewrite List.filter_app, length_app. Qed.

Lemma leaked_step (t : nat) (w : World) (ev : Event) :
  leaked t w -> leaked t (step w ev).
Proof.
  unfold leaked.
  destruct w as [[gr br g bid u ck bv img st pr] ts tr n];
    destruct ev as [| |k typedArray|k image|k error]; cbn [step tasks];
    try (destruct (ts !! k) as [[bv'| |uri]|] eqn:Hk);
    cbn [self trace nextToken _bufferViewCacheResource];
    intros (Hlt & Hout & Hbv); branches;
    rewrite ?released_app, ?app_nil_r;
    repeat split; try done; try lia;
    try (intros [= ->]; lia);
    change (released [ResourceCache_unload ?b]) with [token b];
    rewrite ?elem_of_app, ?list_elem_of_singleton;
    try (intros [?|?]; try done; subst t;
         match goal with b : BufferViewCacheResource |- _ => by destruct b end).
Qed.

Lemma step_attempts (w : World) (ev : Event) :
  attempts (trace (step w ev)) + length (tasks (step w ev))
  <= attempts (trace w) + length (tasks w) + (if is_load ev then 1 else 0).
Proof.
  destruct w as [[gr br g bid u ck bv img st pr] ts tr n];
    destruct ev as [| |k typedArray|k image|k error]; cbn [step tasks is_load];
    try (destruct (ts !! k) as [[bv'| |uri]|] eqn:Hk;
         try (pose proof (lookup_lt_Some _ _ _ Hk);
              pose proof (length_delete ts k ltac:(by eexists))));
    cbn [self trace tasks]; branches;
    rewrite ?attempts_app, ?length_app, ?length_insert;
    cbn [attempts List.filter is_settle length]; lia.
Qed.

End Handlers.

(** X14. The handler of [then] on a decoder, for an entry that is not
    unloaded, whatever its state otherwise: it first gives back the buffer
    view that the entry holds, then stores the image and sets the state to
    [READY], then calls [resolve]; the deferred is resolved if it was
    pending. A late result thus makes a failed entry ready while its
    deferred stays rejected. *)
Theorem success_publishes (w : World) (k : nat) (image : DecodedImage) :
  resumes_success w (Fulfil_image k image) = true ->
  _state (self w) <> UNLOADED ->
  exists snapshot,
    trace (step w (Fulfil_image k image))
    = trace w ++ release_of (self w) ++ [Promise_resolve snapshot] /\
    _state snapshot = READY /\ _image snapshot = Some image /\
    freed snapshot /\ _promise snapshot = _promise (self w) /\
    _state (self (step w (Fulfil_image k image))) = READY /\
    Getter.image (self (step w (Fulfil_image k image))) = Some image /\
    freed (self (step w (Fulfil_image k image))) /\
    Getter.promise (self (step w (Fulfil_image k image)))
    = (if settled (_promise (self w)) then _promise (self w) else Resolved) /\
    tasks (step w (Fulfil_image k image)) = delete k (tasks w).
Proof.
  unfold freed, Getter.image, Getter.promise.
  destruct w as [[gr br g bid u ck bv img st pr] ts tr n].
  cbn [resumes_success step tasks self _state].
  intros Hev Hst.
  destruct (ts !! k) as [[bv'| |uri]|]; try done;
    destruct st; try done; branches;
    rewrite <- ?app_assoc; eexists; by repeat split.
Qed.

Lemma success_publishes_witness :
  _state (self (run (world_of Sample.external_entry)
                  [Call_load; Call_load; Fail 0 None; Fulfil_image 0 7])) = READY /\
  _promise (self (run (world_of Sample.external_entry)
                    [Call_load; Call_load; Fail 0 None; Fulfil_image 0 7]))
  = Rejected (RuntimeError "Failed to load image:wood.crn").
Proof.
  destruct (success_publishes
              (run (world_of Sample.external_entry)
                 [Call_load; Call_load; Fail 0 None])
              0 7 eq_refl ltac:(discriminate))
    as (snapshot & _ & _ & _ & _ & _ & Hst & _ & _ & Hp & _).
  split; [exact Hst|exact Hp].
Defined.

(** X15. The inline path from end to end: for an entry with a buffer
    view id and bytes with the signature of a format, [load], the arrival
    of the bytes and the end of the decoder make exactly four calls, in
    this order: the buffer view is acquired, not to be kept resident; the
    decoder of the format is called on the bytes; the buffer view is given
    back; the deferred is resolved. The entry is then ready with the
    image and awaits nothing. *)
Theorem inline_end_to_end (options : Options) (e : GltfImageCacheResource)
    (id : nat) (bytes : list Z) (f : Sniff.ImageFormat) (image : DecodedImage) :
  new_GltfImageCacheResource options = Normal e ->
  _bufferViewId e = Some id ->
  Sniff.has_header f bytes ->
  exists snapshot,
    trace (run (world_of e)
             [Call_load; Fulfil_bufferView 0 bytes; Fulfil_image 0 image])
    = [ResourceCache_loadBufferView {| token := 0 |} (Some (gltf options))
         (Some id) (gltfResource options) (baseResource options) false;
       Decoder_call (inline_call f bytes);
       ResourceCache_unload {| token := 0 |};
       Promise_resolve snapshot] /\
    _state (self (run (world_of e)
             [Call_load; Fulfil_bufferView 0 bytes; Fulfil_image 0 image])) = READY /\
    Getter.image (self (run (world_of e)
             [Call_load; Fulfil_bufferView 0 bytes; Fulfil_image 0 image]))
    = Some image /\
    Getter.promise (self (run (world_of e)
             [Call_load; Fulfil_bufferView 0 bytes; Fulfil_image 0 image]))
    = Resolved /\
    tasks (run (world_of e)
             [Call_load; Fulfil_bufferView 0 bytes; Fulfil_image 0 image]) = [].
Proof.
  intros Hnew Hid Hh.
  unfold new_GltfImageCacheResource in Hnew.
  destruct (_ !! _); [|done]. destruct (select_source _ _) as [b u].
  injection Hnew as <-. cbn in Hid. subst b.
  cbn [run fold_left]. cbn [step load world_of self _bufferViewId defined].
  unfold loadFromBufferView. cbn [fresh_bufferView nextToken self].
  cbn [with_tasks update emit self tasks trace nextToken app lookup list_lookup].
  unfold then_bufferView.
  cbn [self _state set_state set_bufferViewCacheResource CacheResourceState_eqb].
  rewrite (inline_call_of_header f bytes Hh).
  cbn [with_tasks emit self tasks trace nextToken app insert list_insert
       lookup list_lookup step].
  unfold then_image, Getter.image, Getter.promise.
  cbn [with_tasks self _state CacheResourceState_eqb].
  handlers. cbn [delete list_delete app].
  eexists. by repeat split.
Qed.

Lemma inline_end_to_end_witness :
  exists snapshot,
    trace (run (world_of Sample.plain_entry)
             [Call_load; Fulfil_bufferView 0 Sniff.png_header; Fulfil_image 0 7])
    = [ResourceCache_loadBufferView {| token := 0 |} (Some Sample.model)
         (Some 5) {| url := "https://example.com/model/model.gltf" |}
         Sample.folder false;
       Decoder_call (loadImageFromTypedArray Sniff.png_header "image/png" false);
       ResourceCache_unload {| token := 0 |};
       Promise_resolve snapshot].
Proof.
  destruct (inline_end_to_end (Sample.options 2) Sample.plain_entry 5
              Sniff.png_header Sniff.PNG 7 eq_refl eq_refl)
    as (snapshot & Htr & _).
  - simpl. by eexists.
  - by exists snapshot.
Defined.

(** X16. [unload] takes away what [load] needs: after it the glTF and the
    uri of the entry are undefined, and a call of [load] asks the cache
    for the buffer view of an undefined glTF, or, on the uri path,
    derives the resource to decode from an undefined uri. *)
Theorem load_after_unload (w : World) :
  _gltf (self (prototype_unload w)) = None /\
  _uri (self (prototype_unload w)) = None /\
  _state (self (load (prototype_unload w))) = LOADING /\
  trace (load (prototype_unload w))
  = trace (prototype_unload w)
    ++ [match _bufferViewId (self w) with
        | Some id =>
            ResourceCache_loadBufferView {| token := nextToken w |} None
              (Some id) (_gltfResource (self w)) (_baseResource (self w)) false
        | None =>
            Decoder_call
              (UriDispatch.loadImageFromUri
                 (getDerivedResource (_baseResource (self w)) None))
        end].
Proof.
  rewrite prototype_unload_self, prototype_unload_trace.
  destruct w as [[gr br g bid u ck bv img st pr] ts tr n].
  cbn [self nextToken _gltf _uri _bufferViewId _gltfResource _baseResource
       set_state set_gltf set_image set_uri set_bufferViewCacheResource].
  split; [done|]. split; [done|].
  unfold load, prototype_unload.
  autorewrite with world.
  cbn [self _bufferViewId set_state set_gltf set_image set_uri
       set_bufferViewCacheResource].
  destruct bid as [id|]; cbn [defined].
  - unfold loadFromBufferView, fresh_bufferView. cbv beta iota zeta.
    autorewrite with world. cbn [self trace nextToken].
    autorewrite with world.
    cbn [_state _gltf _bufferViewId _gltfResource _baseResource set_state
         set_gltf set_image set_uri set_bufferViewCacheResource].
    done.
  - unfold loadFromUri. cbv beta iota zeta. autorewrite with world.
    cbn [_state _uri _baseResource set_state set_gltf set_image set_uri
         set_bufferViewCacheResource].
    done.
Qed.

(** X17. A call of [load] while the entry holds a buffer view loses it:
    the entry takes a new one in its place, and whatever happens next the
    one it held is never given back to the cache. *)
Theorem second_load_leaks (e : GltfImageCacheResource)
    (evs1 evs2 : list Event) (bv : BufferViewCacheResource) :
  _bufferViewCacheResource e = None ->
  _bufferViewId e <> None ->
  _bufferViewCacheResource (self (run (world_of e) evs1)) = Some bv ->
  token bv ∉ released (trace (run (world_of e) (evs1 ++ Call_load :: evs2))).
Proof.
  intros He Hid Hbv.
  rewrite run_app. cbn [run fold_left]. fold (run (world_of e) evs1).
  pose proof (cache_ok_run evs1 _ (cache_ok_new e He)) as (_ & Hfresh & _ & Hheld).
  destruct (Hheld bv Hbv) as [Hin Hout]. specialize (Hfresh _ Hin).
  destruct (run_immutable evs1 (world_of e)) as (_ & Hid1 & _).
  cbn [world_of self] in Hid1.
  assert (Hl : leaked (token bv) (step (run (world_of e) evs1) Call_load)).
  { cbn [step]. unfold load. rewrite Hid1.
    destruct (_bufferViewId e); [|done]. cbn [defined].
    unfold leaked, loadFromBufferView, fresh_bufferView. cbv beta iota zeta.
    autorewrite with world. cbn [self trace nextToken].
    autorewrite with world.
    cbn [_bufferViewCacheResource set_state set_bufferViewCacheResource].
    rewrite released_app. split; [lia|]. split.
    - rewrite elem_of_app. intros [?|H]; [done|]. inversion H.
    - intros [= H]. lia. }
  revert Hl. generalize (step (run (world_of e) evs1) Call_load).
  induction evs2 as [|ev evs2 IH]; intros w Hw.
  - by destruct Hw as (_ & H & _).
  - cbn [fold_left]. by apply IH, leaked_step.
Qed.

Lemma second_load_leaks_witness :
  0 ∉ released (trace (run (world_of Sample.plain_entry)
                         ([Call_load] ++ Call_load ::
                          [Call_unload; Fulfil_bufferView 0 Sniff.png_header;
                           Fulfil_bufferView 0 Sniff.png_header; Fail 0 None]))).
Proof.
  apply (second_load_leaks Sample.plain_entry [Call_load]
           [Call_unload; Fulfil_bufferView 0 Sniff.png_header;
            Fulfil_bufferView 0 Sniff.png_header; Fail 0 None]
           {| token := 0 |}); [reflexivity|discriminate|reflexivity].
Defined.

(** X18. The entry calls [resolve] or [reject] at most once for each call
    of [load]: along every run of an entry the number of these calls,
    plus the number of promises still awaited, is at most the number of
    calls of [load]. *)
Theorem one_answer_per_load (e : GltfImageCacheResource) (evs : list Event) :
  attempts (trace (run (world_of e) evs)) + length (tasks (run (world_of e) evs))
  <= count_loads evs.
Proof.
  assert (H : forall w,
            attempts (trace (run w evs)) + length (tasks (run w evs))
            <= attempts (trace w) + length (tasks w) + count_loads evs).
  { induction evs as [|ev evs IH]; intros w; [cbn; lia|].
    cbn [run fold_left]. fold (run (step w ev) evs).
    specialize (IH (step w ev)). pose proof (step_attempts w ev) as Hs.
    unfold count_loads in *. cbn [List.filter].
    destruct (is_load ev); cbn [length]; lia. }
  specialize (H (world_of e)). cbn in H. lia.
Qed.

Lemma inline_throw_of_no_header (bytes : list Z) :
  (forall f, ~ Sniff.has_header f bytes) ->
  Sniff.loadImageFromBufferTypedArray (R := Resource) bytes
  = Throw (RuntimeError "Image data does not have valid header").
Proof.
  intros Hno. unfold Sniff.loadImageFromBufferTypedArray.
  destruct (sniff_cases bytes) as [(f & _ & Hh)|[-> _]]; [|done].
  by destruct (Hno f).
Qed.

(** X19. Embedded bytes without a valid header: [load] and the arrival of
    the bytes make exactly three calls: the buffer view is acquired, it is
    given back, and the deferred is rejected with what [getError] makes of
    the error of the sniffer and the context message "Failed to load
    embedded image". No decoder is called, and the entry is failed,
    without image, and awaits nothing. *)
Theorem inline_corrupt (options : Options) (e : GltfImageCacheResource)
    (id : nat) (bytes : list Z) :
  new_GltfImageCacheResource options = Normal e ->
  _bufferViewId e = Some id ->
  (forall f, ~ Sniff.has_header f bytes) ->
  exists snapshot,
    trace (run (world_of e) [Call_load; Fulfil_bufferView 0 bytes])
    = [ResourceCache_loadBufferView {| token := 0 |} (Some (gltf options))
         (Some id) (gltfResource options) (baseResource options) false;
       ResourceCache_unload {| token := 0 |};
       Promise_reject snapshot
         (getError
            (Some (RuntimeError "Image data does not have valid header"))
            "Failed to load embedded image")] /\
    _state (self (run (world_of e) [Call_load; Fulfil_bufferView 0 bytes]))
    = FAILED /\
    Getter.promise (self (run (world_of e) [Call_load; Fulfil_bufferView 0 bytes]))
    = Rejected
        (getError
           (Some (RuntimeError "Image data does not have valid header"))
           "Failed to load embedded image") /\
    Getter.image (self (run (world_of e) [Call_load; Fulfil_bufferView 0 bytes]))
    = None /\
    tasks (run (world_of e) [Call_load; Fulfil_bufferView 0 bytes]) = [].
Proof.
  intros Hnew Hid Hno.
  unfold new_GltfImageCacheResource in Hnew.
  destruct (_ !! _); [|done]. destruct (select_source _ _) as [b u].
  injection Hnew as <-. cbn in Hid. subst b.
  cbn [run fold_left]. cbn [step load world_of self _bufferViewId defined].
  unfold loadFromBufferView. cbn [fresh_bufferView nextToken self].
  cbn [with_tasks update emit self tasks trace nextToken app lookup list_lookup].
  unfold then_bufferView.
  cbn [self _state set_state set_bufferViewCacheResource CacheResourceState_eqb].
  rewrite (inline_throw_of_no_header bytes Hno).
  unfold Getter.image, Getter.promise.
  handlers. cbn [delete list_delete app].
  eexists. by repeat split.
Qed.

Lemma inline_corrupt_witness :
  _state (self (run (world_of Sample.plain_entry)
                  [Call_load; Fulfil_bufferView 0 [1; 2; 3]%Z])) = FAILED.
Proof.
  destruct (inline_corrupt (Sample.options 2) Sample.plain_entry 5 [1; 2; 3]%Z
              eq_refl eq_refl) as (_ & _ & H & _).
  - intros f Hf. destruct f; cbn in Hf;
      repeat match type of Hf with
             | exists _, _ => destruct Hf as [? Hf]
             end; discriminate.
  - exact H.
Defined.

(** X20. The uri path from end to end: for an entry without a buffer
    view id, [load] and the end of the decoder make exactly two calls:
    the decoder chosen for the resource derived from the uri of the
    entry, and [resolve]. The entry is then ready with the image, and its
    uri, possibly a long data uri, is dropped. *)
Theorem uri_end_to_end (options : Options) (e : GltfImageCacheResource)
    (image : DecodedImage) :
  new_GltfImageCacheResource options = Normal e ->
  _bufferViewId e = None ->
  exists snapshot,
    trace (run (world_of e) [Call_load; Fulfil_image 0 image])
    = [Decoder_call (UriDispatch.loadImageFromUri
                       (getDerivedResource (baseResource options) (_uri e)));
       Promise_resolve snapshot] /\
    _state (self (run (world_of e) [Call_load; Fulfil_image 0 image])) = READY /\
    Getter.image (self (run (world_of e) [Call_load; Fulfil_image 0 image]))
    = Some image /\
    Getter.promise (self (run (world_of e) [Call_load; Fulfil_image 0 image]))
    = Resolved /\
    _uri (self (run (world_of e) [Call_load; Fulfil_image 0 image])) = None /\
    tasks (run (world_of e) [Call_load; Fulfil_image 0 image]) = [].
Proof.
  intros Hnew Hid.
  unfold new_GltfImageCacheResource in Hnew.
  destruct (_ !! _); [|done]. destruct (select_source _ _) as [b u].
  injection Hnew as <-. cbn in Hid. subst b.
  unfold world_of. cbn [run fold_left step]. unfold load.
  cbn [self _bufferViewId defined]. unfold loadFromUri. cbv beta zeta.
  cbn [self _baseResource _uri].
  generalize (UriDispatch.loadImageFromUri
                (getDerivedResource (baseResource options) u)). intros call.
  cbn [with_tasks update emit self tasks trace nextToken app lookup list_lookup
       step].
  unfold then_image, Getter.image, Getter.promise.
  cbn [with_tasks self _state set_state CacheResourceState_eqb].
  handlers. cbn [delete list_delete app].
  eexists. by repeat split.
Qed.

Lemma uri_end_to_end_witness :
  exists snapshot,
    trace (run (world_of Sample.external_entry) [Call_load; Fulfil_image 0 7])
    = [Decoder_call (loadCRN_resource {| url := "https://example.com/model/wood.crn" |});
       Promise_resolve snapshot].
Proof.
  destruct (uri_end_to_end (Sample.options 0) Sample.external_entry 7
              eq_refl eq_refl) as (snapshot & Htr & _).
  by exists snapshot.
Defined.
